(** * treenode2: pointer-reactive tree animations

    A shallow embedding of the two canvas animations of the repository:

    - [Banner]     : the forest of ten-node tree glyphs drawn on
                     [bannerTreeCanvas] (template placement, spring /
                     repulsion integrator with jitter and speed cap);
    - [TreeCanvas] : the single tree silhouette drawn on [treeCanvas]
                     (statistical placement, spring / repulsion integrator,
                     proximity links).

    JavaScript numbers are IEEE-754 doubles.  The programs are written once,
    over an interface [JsNum] of the arithmetic they use, and read in two
    number models:

    - [R]      exact real arithmetic (no rounding, no special values): the
               model in which the algebraic laws are proved;
    - [float]  the kernel's binary64 numbers: the model that computes what a
               JavaScript engine computes, and in which the statements on
               NaN, the infinities and rounding are made.

    [Math.random] is an explicit source of draws threaded through the code by
    a small state monad. *)

From Stdlib Require Import Reals Lra Lia List ZArith QArith Qreals Bool.
From Stdlib Require PrimFloat Uint63 Floats.
Import ListNotations.

Set Implicit Arguments.

(* ================================================================== *)
(** * Numbers *)

Declare Scope js_scope.
Delimit Scope js_scope with js.

(** The arithmetic of a JavaScript number that the two programs use. *)
Class JsNum (A : Type) : Type := {
  lit    : Q -> A;            (* a numeric literal, given as a fraction *)
  nadd   : A -> A -> A;       (* a + b *)
  nsub   : A -> A -> A;       (* a - b *)
  nmul   : A -> A -> A;       (* a * b *)
  ndiv   : A -> A -> A;       (* a / b *)
  nneg   : A -> A;            (* -a *)
  msqrt  : A -> A;            (* Math.sqrt(a) *)
  mmax   : A -> A -> A;       (* Math.max(a, b) *)
  mmin   : A -> A -> A;       (* Math.min(a, b) *)
  mfloor : A -> A;            (* Math.floor(a) *)
  nlt    : A -> A -> bool;    (* a < b *)
  neq    : A -> A -> bool;    (* a === b *)
  truthy : A -> bool          (* ToBoolean(a): false on 0 and NaN *)
}.

Notation "a + b" := (nadd a b) : js_scope.
Notation "a - b" := (nsub a b) : js_scope.
Notation "a * b" := (nmul a b) : js_scope.
Notation "a / b" := (ndiv a b) : js_scope.
Notation "- a" := (nneg a) : js_scope.
Notation "a <? b" := (nlt a b) : js_scope.
Notation "a >? b" := (nlt b a) : js_scope.
Notation "a === b" := (neq a b) (at level 70, no associativity) : js_scope.

(** [a || b] on numbers: [a] when it is truthy, [b] otherwise. *)
Definition orElse {A} `{JsNum A} (a b : A) : A := if truthy a then a else b.

(** ** Exact reals *)

Definition Rltb (a b : R) : bool := if Rlt_dec a b then true else false.
Definition Reqb (a b : R) : bool := if Req_dec_T a b then true else false.
Definition Rfloor (a : R) : R := IZR (Int_part a).

#[export] Instance RNum : JsNum R := {|
  lit := Q2R;
  nadd := Rplus; nsub := Rminus; nmul := Rmult; ndiv := Rdiv; nneg := Ropp;
  msqrt := sqrt; mmax := Rmax; mmin := Rmin; mfloor := Rfloor;
  nlt := Rltb; neq := Reqb;
  truthy := fun a => negb (Reqb a 0)
|}.

(** ** Binary64 *)

Definition float_of_Z (z : Z) : PrimFloat.float :=
  match z with
  | Zneg p => PrimFloat.opp (PrimFloat.of_uint63 (Uint63.of_Z (Zpos p)))
  | _ => PrimFloat.of_uint63 (Uint63.of_Z z)
  end.

(** The double nearest to a fraction of two small integers: what the
    engine reads from the decimal literal. *)
Definition float_of_Q (q : Q) : PrimFloat.float :=
  PrimFloat.div (float_of_Z (Qnum q)) (float_of_Z (Zpos (Qden q))).

Definition fmax (a b : PrimFloat.float) : PrimFloat.float :=
  if (PrimFloat.is_nan a || PrimFloat.is_nan b)%bool then PrimFloat.nan
  else if PrimFloat.ltb a b then b
  else if PrimFloat.ltb b a then a
  else if PrimFloat.get_sign a then b else a.

Definition fmin (a b : PrimFloat.float) : PrimFloat.float :=
  if (PrimFloat.is_nan a || PrimFloat.is_nan b)%bool then PrimFloat.nan
  else if PrimFloat.ltb a b then a
  else if PrimFloat.ltb b a then b
  else if PrimFloat.get_sign a then a else b.

(** Round towards minus infinity.  Doubles of magnitude [2^52] and more are
    integers already; below, adding and removing [2^52] rounds to an
    integer, which is then corrected downwards. *)
Definition ffloor (a : PrimFloat.float) : PrimFloat.float :=
  let two52 := float_of_Z (2 ^ 52) in
  if PrimFloat.ltb (PrimFloat.abs a) two52 then
    let r :=
      if PrimFloat.get_sign a
      then PrimFloat.add (PrimFloat.sub a two52) two52
      else PrimFloat.sub (PrimFloat.add a two52) two52 in
    let r := if PrimFloat.ltb a r then PrimFloat.sub r PrimFloat.one else r in
    if PrimFloat.eqb r PrimFloat.zero
    then (if PrimFloat.get_sign a then PrimFloat.neg_zero else PrimFloat.zero)
    else r
  else a.

#[export] Instance FNum : JsNum PrimFloat.float := {|
  lit := float_of_Q;
  nadd := PrimFloat.add; nsub := PrimFloat.sub; nmul := PrimFloat.mul;
  ndiv := PrimFloat.div; nneg := PrimFloat.opp;
  msqrt := PrimFloat.sqrt; mmax := fmax; mmin := fmin; mfloor := ffloor;
  nlt := PrimFloat.ltb; neq := PrimFloat.eqb;
  truthy := fun a => negb (PrimFloat.eqb a PrimFloat.zero || PrimFloat.is_nan a)
|}.

Arguments lit {A _} q%_Q.

(* ================================================================== *)
(** * Randomness *)

(** [Math.random()] reads the next draw of a source fixed in advance;
    [used] counts the draws made so far. *)
Record Rng (A : Type) : Type := MkRng {
  draws : nat -> A;
  used  : nat
}.

Definition Rand (A X : Type) : Type := Rng A -> X * Rng A.

Definition ret {A X} (v : X) : Rand A X := fun g => (v, g).

Definition bind {A X Y} (c : Rand A X) (k : X -> Rand A Y) : Rand A Y :=
  fun g => let (v, g') := c g in k v g'.

Notation "x <- c ;; k" := (bind c (fun x => k))
  (at level 61, c at next level, right associativity).
Notation "' pat <- c ;; k" := (bind c (fun x => match x with pat => k end))
  (at level 61, pat pattern, c at next level, right associativity).

(** [Math.random()] *)
Definition random {A} : Rand A A :=
  fun g => (draws g (used g), MkRng (draws g) (S (used g))).

(** [for (const v of l) { ... }], the body rewriting each element in place. *)
Fixpoint forEach {A X} (body : X -> Rand A X) (l : list X) : Rand A (list X) :=
  match l with
  | [] => ret []
  | v :: l' =>
      v' <- body v ;;
      l'' <- forEach body l' ;;
      ret (v' :: l'')
  end.

(* ================================================================== *)
(** * Shared data *)

(** A node: anchor, current position, velocity. *)
Record Node (A : Type) : Type := MkNode {
  ax : A; ay : A;
  x  : A; y  : A;
  vx : A; vy : A
}.

(** [state.mouse] *)
Record Mouse (A : Type) : Type := MkMouse {
  mouse_x : A;
  mouse_y : A;
  active  : bool
}.

(** [onLeave]: the pointer left; both programs store the same sentinel. *)
Definition onLeave {A} `{JsNum A} : Mouse A :=
  MkMouse (lit (-9999)) (lit (-9999)) false.

(** [onMove]: the pointer moved to [(px, py)], the client coordinates of
    the event less the corner of the canvas. *)
Definition onMove {A} (px py : A) : Mouse A := MkMouse px py true.

(** [W = Math.max(1, Math.floor(rect.width))], and the same for [H]. *)
Definition surfaceSide {A} `{JsNum A} (side : A) : A :=
  mmax (lit 1) (mfloor side).

(* ================================================================== *)
(** * The banner forest (canvas [bannerTreeCanvas]) *)

Module Banner.
Section Code.
Context {A : Type} `{JsNum A}.
Local Open Scope js_scope.

Record Config : Type := MkConfig {
  treeCount : nat;
  nodesPerTree : nat;
  minScale : A;
  maxScale : A;
  spring : A;
  damping : A;
  maxSpeed : A;
  hoverRadius : A;
  repelStrength : A;
  noiseStrength : A;
  safeCenterXMin : A;
  safeCenterXMax : A;
  safeCenterYMin : A;
  safeCenterYMax : A
}.

Definition CFG : Config := {|
  treeCount := 10;
  nodesPerTree := 10;
  minScale := lit 26;
  maxScale := lit 44;
  spring := lit 0.055;
  damping := lit 0.86;
  maxSpeed := lit 7.0;
  hoverRadius := lit 95;
  repelStrength := lit 1.15;
  noiseStrength := lit 0.20;
  safeCenterXMin := lit 0.34;
  safeCenterXMax := lit 0.66;
  safeCenterYMin := lit 0.22;
  safeCenterYMax := lit 0.78
|}.

Definition TREE_TEMPLATE : list (A * A) :=
  [ (lit 0.00, lit (-0.55));
    (lit (-0.18), lit (-0.40));
    (lit 0.18, lit (-0.40));
    (lit (-0.32), lit (-0.20));
    (lit 0.32, lit (-0.20));
    (lit (-0.38), lit 0.10);
    (lit 0.38, lit 0.10);
    (lit (-0.12), lit 0.10);
    (lit 0.12, lit 0.18);
    (lit 0.00, lit 0.42) ].

Record Tree : Type := MkTree {
  cx : A;
  cy : A;
  scale : A;
  nodes : list (Node A)
}.

Definition clamp (v lo hi : A) : A := mmax lo (mmin hi v).

Definition rand (lo hi : A) : Rand A A :=
  r <- random ;;
  ret (lo + r * (hi - lo)).

(** The two tests of one candidate [(nx, ny)] of [chooseTreeCenter]. *)
Definition inSafeBox (cfg : Config) (nx ny : A) : bool :=
  (nx >? safeCenterXMin cfg) && (nx <? safeCenterXMax cfg) &&
  (ny >? safeCenterYMin cfg) && (ny <? safeCenterYMax cfg).

Definition edgeBias (nx ny : A) : bool :=
  (nx <? lit 0.2) || (nx >? lit 0.8) || (ny <? lit 0.25) || (ny >? lit 0.85).

(** The loop of [chooseTreeCenter] from the iteration numbered [tries], with
    [left] iterations to go ([tries + left = 40]); [None] when it runs out
    without a [return]. *)
Fixpoint chooseLoop (cfg : Config) (W H : A) (left tries : nat)
  : Rand A (option (A * A)) :=
  match left with
  | O => ret None
  | S left' =>
      nx <- random ;;
      ny <- random ;;
      if negb (inSafeBox cfg nx ny) && edgeBias nx ny
      then ret (Some (nx * W, ny * H))
      else if negb (inSafeBox cfg nx ny) && (15 <? tries)%nat
      then ret (Some (nx * W, ny * H))
      else chooseLoop cfg W H left' (S tries)
  end.

Definition chooseTreeCenter (cfg : Config) (W H : A) : Rand A (A * A) :=
  r <- chooseLoop cfg W H 40 0 ;;
  match r with
  | Some c => ret c
  | None =>
      fx <- random ;;
      fy <- random ;;
      ret (fx * W, fy * H)
  end.

Definition makeTree (cfg : Config) (W H : A) : Rand A Tree :=
  '(cx, cy) <- chooseTreeCenter cfg W H ;;
  scale <- rand (minScale cfg) (maxScale cfg) ;;
  let nodes :=
    map (fun '(tx, ty) =>
           let ax := cx + tx * scale in
           let ay := cy + ty * scale in
           MkNode ax ay ax ay (lit 0) (lit 0))
        (firstn (nodesPerTree cfg) TREE_TEMPLATE) in
  ret (MkTree cx cy scale nodes).

(** [initForest]: [state.trees] is emptied and refilled. *)
Fixpoint growForest (cfg : Config) (W H : A) (count : nat)
  : Rand A (list Tree) :=
  match count with
  | O => ret []
  | S count' =>
      t <- makeTree cfg W H ;;
      ts <- growForest cfg W H count' ;;
      ret (t :: ts)
  end.

Definition initForest (cfg : Config) (W H : A) : Rand A (list Tree) :=
  growForest cfg W H (treeCount cfg).

(** [resize]: the sides of the surface in whole pixels, and the forest
    planted anew on it.  The backing store of the canvas, scaled by the
    device pixel ratio, is left out. *)
Definition resize (cfg : Config) (width height : A)
  : Rand A (A * A * list Tree) :=
  let W := surfaceSide width in
  let H := surfaceSide height in
  ts <- initForest cfg W H ;;
  ret (W, H, ts).

(** The force factor [f] of a node at distance [d] from the pointer. *)
Definition repelForce (cfg : Config) (d : A) : A :=
  let t := lit 1 - d / hoverRadius cfg in
  t * t * repelStrength cfg.

(** The block guarded by [if (state.mouse.active)]: the velocity [(vx, vy)]
    of node [n] after the repulsion and its jitter. *)
Definition repel (cfg : Config) (m : Mouse A) (n : Node A) (v : A * A)
  : Rand A (A * A) :=
  let '(vx0, vy0) := v in
  if active m then
    let dx := x n - mouse_x m in
    let dy := y n - mouse_y m in
    let d := msqrt (dx * dx + dy * dy) in
    if d <? hoverRadius cfg then
      let f := repelForce cfg d in
      let nx := dx / orElse d (lit 1) in
      let ny := dy / orElse d (lit 1) in
      let vx1 := vx0 + nx * f * lit 16 in
      let vy1 := vy0 + ny * f * lit 16 in
      jx <- random ;;
      let vx2 := vx1 + (jx - lit 0.5) * noiseStrength cfg in
      jy <- random ;;
      let vy2 := vy1 + (jy - lit 0.5) * noiseStrength cfg in
      ret (vx2, vy2)
    else ret (vx0, vy0)
  else ret (vx0, vy0).

(** The body of the inner loop of [step]: one node, one tick. *)
Definition stepNode (cfg : Config) (m : Mouse A) (dt : A) (n : Node A)
  : Rand A (Node A) :=
  (* Spring back to anchor *)
  let vx0 := vx n + (ax n - x n) * spring cfg in
  let vy0 := vy n + (ay n - y n) * spring cfg in
  '(vx1, vy1) <- repel cfg m n (vx0, vy0) ;;
  (* Damping & cap *)
  let vx2 := vx1 * damping cfg in
  let vy2 := vy1 * damping cfg in
  let vx3 := clamp vx2 (- maxSpeed cfg) (maxSpeed cfg) in
  let vy3 := clamp vy2 (- maxSpeed cfg) (maxSpeed cfg) in
  (* Integrate *)
  ret (MkNode (ax n) (ay n)
              (x n + vx3 * (dt * lit 60))
              (y n + vy3 * (dt * lit 60))
              vx3 vy3).

Definition stepTree (cfg : Config) (m : Mouse A) (dt : A) (t : Tree)
  : Rand A Tree :=
  ns <- forEach (stepNode cfg m dt) (nodes t) ;;
  ret (MkTree (cx t) (cy t) (scale t) ns).

Definition step (cfg : Config) (m : Mouse A) (dt : A) (trees : list Tree)
  : Rand A (list Tree) :=
  forEach (stepTree cfg m dt) trees.

(** [state], and the simulation part of one animation frame at timestamp
    [t] (milliseconds); the drawing of the discs is left out. *)
Record State : Type := MkState {
  trees : list Tree;
  mouse : Mouse A;
  lastT : A
}.

Definition loop (cfg : Config) (t : A) (s : State) : Rand A State :=
  let dt := mmin (lit 0.033) ((t - lastT s) / lit 1000) in
  ts <- step cfg (mouse s) dt (trees s) ;;
  ret (MkState ts (mouse s) t).

(** The frames the browser schedules at the timestamps [ts], in order. *)
Fixpoint frames (cfg : Config) (ts : list A) (s : State) : Rand A State :=
  match ts with
  | [] => ret s
  | t :: ts' =>
      s' <- loop cfg t s ;;
      frames cfg ts' s'
  end.

End Code.
End Banner.

(* ================================================================== *)
(** * The single tree (canvas [treeCanvas]) *)

(** The further functions [randn] and [buildTree] use; they are read in the
    exact reals only. *)
Class JsMath (A : Type) : Type := {
  mlog : A -> A;              (* Math.log(a) *)
  mcos : A -> A;              (* Math.cos(a) *)
  mpi  : A;                   (* Math.PI *)
  npow : A -> A -> A          (* a ** b *)
}.

#[export] Instance RMath : JsMath R := {|
  mlog := ln; mcos := cos; mpi := PI; npow := Rpower
|}.

(** A loop counter or a count of the configuration, as a number. *)
Definition ofNat {A} `{JsNum A} (n : nat) : A := lit (inject_Z (Z.of_nat n)).

(** A computation that may not return: [None] when the [while] loops of
    [randn] are cut off. *)
Definition bindO {A X Y} (c : Rand A (option X)) (k : X -> Rand A (option Y))
  : Rand A (option Y) :=
  r <- c ;;
  match r with
  | Some v => k v
  | None => ret None
  end.

Notation "x <-? c ;; k" := (bindO c (fun x => k))
  (at level 61, c at next level, right associativity).

Module TreeCanvas.
Section Code.
Context {A : Type} `{JsNum A}.
Local Open Scope js_scope.

Record Config : Type := MkConfig {
  canopyNodes : nat;
  trunkNodes : nat;
  nodeRadius : A;
  repelRadius : A;
  repelStrength : A;
  returnStrength : A;
  damping : A;
  linkDist : A;
  linkAlpha : A
}.

Definition CFG : Config := {|
  canopyNodes := 220;
  trunkNodes := 45;
  nodeRadius := lit 2.6;
  repelRadius := lit 110;
  repelStrength := lit 0.55;
  returnStrength := lit 0.06;
  damping := lit 0.86;
  linkDist := lit 34;
  linkAlpha := lit 0.22
|}.

Definition makeNode (x y : A) : Node A :=
  MkNode x y x y (lit 0) (lit 0).

(** [while (u === 0) u = Math.random();] entered with [u = 0]: the first
    draw that is not zero, looked for among the next [fuel] draws. *)
Fixpoint drawNonZero (fuel : nat) : Rand A (option A) :=
  match fuel with
  | O => ret None
  | S fuel' =>
      u <- random ;;
      if u === lit 0 then drawNonZero fuel' else ret (Some u)
  end.

(** Box-Muller *)
Definition randn `{JsMath A} (fuel : nat) : Rand A (option A) :=
  u <-? drawNonZero fuel ;;
  v <-? drawNonZero fuel ;;
  ret (Some (msqrt (lit (-2.0) * mlog u) * mcos (lit 2.0 * mpi * v))).

(** The canopy loop of [buildTree], with [left] nodes to go. *)
Fixpoint canopy `{JsMath A} (W H : A) (fuel left : nat)
  : Rand A (option (list (Node A))) :=
  match left with
  | O => ret (Some [])
  | S left' =>
      t <- random ;;
      let y := H * (lit 0.2 + lit 0.65 * (lit 1 - t)) in
      let halfWidth := (W * lit 0.22) * (lit 0.25 + npow (lit 1 - t) (lit 0.75)) in
      g <-? randn fuel ;;
      let x := W / lit 2 + g * halfWidth in
      ns <-? canopy W H fuel left' ;;
      ret (Some (makeNode x y :: ns))
  end.

(** The trunk loop of [buildTree] from index [i], with [left] nodes to go. *)
Fixpoint trunk `{JsMath A} (cfg : Config) (W H : A) (fuel left i : nat)
  : Rand A (option (list (Node A))) :=
  match left with
  | O => ret (Some [])
  | S left' =>
      let t := ofNat i / mmax (lit 1) (ofNat (trunkNodes cfg) - lit 1) in
      let y := H * (lit 0.88 - lit 0.55 * t) in
      g <-? randn fuel ;;
      let x := W / lit 2 + g * (W * lit 0.012) in
      ns <-? trunk cfg W H fuel left' (S i) ;;
      ret (Some (makeNode x y :: ns))
  end.

(** [buildTree]: the new value of [state.nodes]. *)
Definition buildTree `{JsMath A} (cfg : Config) (W H : A) (fuel : nat)
  : Rand A (option (list (Node A))) :=
  cs <-? canopy W H fuel (canopyNodes cfg) ;;
  ts <-? trunk cfg W H fuel (trunkNodes cfg) 0 ;;
  ret (Some (cs ++ ts)).

(** [resize]: the surface sides and the tree rebuilt for them. *)
Definition resize `{JsMath A} (cfg : Config) (width height : A) (fuel : nat)
  : Rand A (option (A * A * list (Node A))) :=
  let W := surfaceSide width in
  let H := surfaceSide height in
  ns <-? buildTree cfg W H fuel ;;
  ret (Some (W, H, ns)).

(** The force factor [f] of a node at distance [d] from the pointer. *)
Definition repelForce (cfg : Config) (d : A) : A :=
  (lit 1 - d / repelRadius cfg) * repelStrength cfg.

(** The block "Repel from mouse": the velocity [(vx, vy)] of node [n] after
    it.  The field [active] of the pointer is not read. *)
Definition repel (cfg : Config) (m : Mouse A) (n : Node A) (v : A * A)
  : A * A :=
  let '(vx0, vy0) := v in
  let dx := x n - mouse_x m in
  let dy := y n - mouse_y m in
  let d := msqrt (dx * dx + dy * dy) in
  if d <? repelRadius cfg then
    let f := repelForce cfg d in
    let nx := dx / orElse d (lit 1) in
    let ny := dy / orElse d (lit 1) in
    (vx0 + nx * f * lit 18, vy0 + ny * f * lit 18)
  else (vx0, vy0).

(** The body of the loop of [step]: one node, one tick. *)
Definition stepNode (cfg : Config) (m : Mouse A) (dt : A) (n : Node A)
  : Node A :=
  (* Pull back to anchor *)
  let toAx := ax n - x n in
  let toAy := ay n - y n in
  let vx0 := vx n + toAx * returnStrength cfg in
  let vy0 := vy n + toAy * returnStrength cfg in
  (* Repel from mouse *)
  let '(vx1, vy1) := repel cfg m n (vx0, vy0) in
  (* Integrate *)
  let vx2 := vx1 * damping cfg in
  let vy2 := vy1 * damping cfg in
  MkNode (ax n) (ay n)
         (x n + vx2 * (dt * lit 60))
         (y n + vy2 * (dt * lit 60))
         vx2 vy2.

Definition step (cfg : Config) (m : Mouse A) (dt : A) (nodes : list (Node A))
  : list (Node A) :=
  map (stepNode cfg m dt) nodes.

(** What [draw] asks of the canvas. *)
Inductive Cmd : Type :=
| ClearRect (w h : A)
  (* strokeStyle = `rgba(0,0,0,${alpha.toFixed(3)})`, then the segment
     from (x1, y1) to (x2, y2) is stroked *)
| StrokeLine (alpha : A) (x1 y1 x2 y2 : A)
  (* a disc of radius r at (x, y), filled with rgba(0,0,0,0.92) *)
| FillCircle (x y r : A).

(** The body of the inner loop of [draw]: the link of the pair [(a, b)]. *)
Definition link (cfg : Config) (a b : Node A) : list Cmd :=
  let dx := x a - x b in
  let dy := y a - y b in
  let d2 := dx * dx + dy * dy in
  let max2 := linkDist cfg * linkDist cfg in
  if d2 <? max2 then
    let alpha := linkAlpha cfg * (lit 1 - d2 / max2) in
    [StrokeLine alpha (x a) (y a) (x b) (y b)]
  else [].

(** The two nested loops: every node with every later node. *)
Fixpoint links (cfg : Config) (nodes : list (Node A)) : list Cmd :=
  match nodes with
  | [] => []
  | a :: rest => flat_map (link cfg a) rest ++ links cfg rest
  end.

Definition draw (cfg : Config) (W H : A) (nodes : list (Node A)) : list Cmd :=
  ClearRect W H
  :: links cfg nodes
  ++ map (fun n => FillCircle (x n) (y n) (nodeRadius cfg)) nodes.

(** [state], and one animation frame at timestamp [t] (milliseconds). *)
Record State : Type := MkState {
  nodes : list (Node A);
  mouse : Mouse A;
  lastT : A
}.

Definition loop (cfg : Config) (W H : A) (t : A) (s : State)
  : State * list Cmd :=
  let dt := mmin (lit 0.033) ((t - lastT s) / lit 1000) in
  let ns := step cfg (mouse s) dt (nodes s) in
  (MkState ns (mouse s) t, draw cfg W H ns).

(** The frames the browser schedules at the timestamps [ts], in order; the
    state after the last one. *)
Fixpoint frames (cfg : Config) (W H : A) (ts : list A) (s : State) : State :=
  match ts with
  | [] => s
  | t :: ts' => frames cfg W H ts' (fst (loop cfg W H t s))
  end.

End Code.
End TreeCanvas.

(* ================================================================== *)
(** * Vocabulary of the statements *)

(** The anchor of a node. *)
Definition anchor {A} (n : Node A) : A * A := (ax n, ay n).

(** A node at rest: at its anchor, with no velocity. *)
Definition atRest (n : Node R) : Prop :=
  x n = ax n /\ y n = ay n /\ vx n = 0%R /\ vy n = 0%R.

(** Distance from a node to the stored pointer coordinates. *)
Definition dist (n : Node R) (m : Mouse R) : R :=
  sqrt ((x n - mouse_x m) * (x n - mouse_x m)
        + (y n - mouse_y m) * (y n - mouse_y m)).

(** Both velocity components within [[-b, b]]. *)
Definition speedWithin (b : R) (n : Node R) : Prop :=
  (- b <= vx n <= b)%R /\ (- b <= vy n <= b)%R.

(** The constant source of draws, every draw being [v]. *)
Definition constRng {A} (v : A) : Rng A := MkRng (fun _ => v) 0.

(** The [k]-th candidate [(nx, ny)] that [chooseTreeCenter] draws from [g]. *)
Definition candidate {A} (g : Rng A) (k : nat) : A * A :=
  (draws g (used g + 2 * k), draws g (used g + 2 * k + 1)).

(** The test under which the iteration numbered [tries] returns the
    candidate [(nx, ny)]. *)
Definition accepts {A} `{JsNum A} (cfg : Banner.Config) (tries : nat)
  (c : A * A) : bool :=
  negb (Banner.inSafeBox cfg (fst c) (snd c))
  && (Banner.edgeBias (fst c) (snd c) || (15 <? tries)%nat).

(** A candidate scaled to the surface. *)
Definition scaled {A} `{JsNum A} (W H : A) (c : A * A) : A * A :=
  (nmul (fst c) W, nmul (snd c) H).

(** The number that the canvas reads back from [alpha.toFixed(3)]: the
    multiple of [1/1000] nearest to [alpha], the larger of two when tied. *)
Definition toFixed3 (alpha : R) : R :=
  (Rfloor (alpha * 1000 + 1 / 2) / 1000)%R.

(** Squared distance of two nodes. *)
Definition dist2 (a b : Node R) : R :=
  ((x a - x b) * (x a - x b) + (y a - y b) * (y a - y b))%R.


(** ** Ranges of doubles *)

(** The magnitude of [a] is at most [b]. *)
Definition atMost (b a : PrimFloat.float) : bool :=
  PrimFloat.leb (PrimFloat.abs a) b.

(** [2 ^ 400], far beyond every coordinate, velocity and time step of a
    canvas. *)
Definition farthest : PrimFloat.float := FloatOps.Z.ldexp PrimFloat.one 400.

(** Every field of a node is of magnitude at most [b]. *)
Definition nodeWithin (b : PrimFloat.float) (n : Node PrimFloat.float) : bool :=
  forallb (atMost b) [ax n; ay n; x n; y n; vx n; vy n].





(** The direction in which the repulsion pushes a node: the vector from the
    pointer to the node over [d || 1]. *)
Definition direction (n : Node R) (m : Mouse R) : R * R :=
  (ndiv (x n - mouse_x m)%R (orElse (dist n m) (lit 1)),
   ndiv (y n - mouse_y m)%R (orElse (dist n m) (lit 1))).

(** Among any [fuel] consecutive draws of [g] one is not zero: the loops
    of [randn] then end within [fuel] rounds. *)
Definition zeroRunsBelow (fuel : nat) (g : Rng R) : Prop :=
  forall i, exists j, (j < fuel)%nat /\ draws g (i + j) <> 0%R.

(** A computation that may be cut off keeps the source of draws, yields
    only results that satisfy [P], and does yield a result when the zero
    runs of the source are shorter than [fuel]. *)
Definition yields {X} (fuel : nat) (P : X -> Prop) (c : Rand R (option X))
  : Prop :=
  forall g,
    draws (snd (c g)) = draws g
    /\ match fst (c g) with
       | Some v => P v
       | None => True
       end
    /\ (zeroRunsBelow fuel g -> fst (c g) <> None).

(** ** Ticks, frames and surfaces *)

(** The nodes of a forest, in the order in which [step] visits them. *)
Definition allNodes {A} `{JsNum A} (ts : list Banner.Tree) : list (Node A) :=
  flat_map Banner.nodes ts.

(** The test of the banner under which a tick pushes node [n]: the pointer
    is active and the distance, as the engine computes it, is under the
    hover radius. *)
Definition reached {A} `{JsNum A} (cfg : Banner.Config) (m : Mouse A)
  (n : Node A) : bool :=
  active m
  && nlt (msqrt (nadd (nmul (nsub (x n) (mouse_x m)) (nsub (x n) (mouse_x m)))
                      (nmul (nsub (y n) (mouse_y m)) (nsub (y n) (mouse_y m)))))
         (Banner.hoverRadius cfg).



(** An axis of a node that holds a NaN: in the anchor, the position or the
    velocity. *)
Definition poisonedX (n : Node PrimFloat.float) : bool :=
  PrimFloat.is_nan (ax n) || PrimFloat.is_nan (x n) || PrimFloat.is_nan (vx n).

Definition poisonedY (n : Node PrimFloat.float) : bool :=
  PrimFloat.is_nan (ay n) || PrimFloat.is_nan (y n) || PrimFloat.is_nan (vy n).

(** Node [n'] holds a NaN on every axis on which [n] does. *)
Definition staysPoisoned (n n' : Node PrimFloat.float) : Prop :=
  (poisonedX n = true -> poisonedX n' = true)
  /\ (poisonedY n = true -> poisonedY n' = true).

(** A tree of the configured banner on a surface of [W] by [H]: the centre
    on the surface, the scale between [minScale] and [maxScale], one node
    per offset of the template. *)
Definition treePlaced (W H : R) (t : Banner.Tree) : Prop :=
  ((0 <= Banner.cx t <= W)%R /\ (0 <= Banner.cy t <= H)%R)
  /\ (Banner.minScale Banner.CFG <= Banner.scale t
      <= Banner.maxScale Banner.CFG)%R
  /\ length (Banner.nodes t) = length (Banner.TREE_TEMPLATE (A := R)).

(** ** The page of the single tree *)

Section Pages.
Local Open Scope R_scope.

(** Every draw is a value of [Math.random]: in [[0, 1)]. *)
Definition unitDraws (g : Rng R) : Prop := forall i, 0 <= draws g i < 1.

(** A computation that may be cut off keeps the source of draws and, on
    draws of [Math.random], yields only results that satisfy [P]. *)
Definition yieldsOnUnit {X} (P : X -> Prop) (c : Rand R (option X)) : Prop :=
  forall g, unitDraws g ->
    draws (snd (c g)) = draws g
    /\ match fst (c g) with
       | Some v => P v
       | None => True
       end.











End Pages.

(** Timestamps that [timely] leaves out: after the frame at 48 ms,
    [periods] times thirteen frames 1 ms apart and then six frames 33 ms
    apart. *)
Definition untimelyStamps {A} `{JsNum A} (periods : nat) : list A :=
  flat_map (fun r =>
              map (fun i => ofNat (48 + 211 * r + i)) (seq 1 13)
              ++ map (fun j => ofNat (48 + 211 * r + 13 + 33 * j)) (seq 1 6))
           (seq 0 periods).

(** ** Concrete inputs of the examples below *)

(** A node at rest far to the left of its anchor [(100, 100)]. *)
Definition pulledNode {A} `{JsNum A} : Node A :=
  MkNode (lit 100) (lit 100) (lit 0) (lit 100) (lit 0) (lit 0).

(** A node at rest at its anchor [(100, 100)]. *)
Definition restNode {A} `{JsNum A} : Node A :=
  MkNode (lit 100) (lit 100) (lit 100) (lit 100) (lit 0) (lit 0).

(** A node at rest a long way from its anchor [(1000, 100)]. *)
Definition farNode {A} `{JsNum A} : Node A :=
  MkNode (lit 1000) (lit 100) (lit 0) (lit 100) (lit 0) (lit 0).

(** A node at rest at [(-9944, -9999)], 55 units from the sentinel that
    [onLeave] stores. *)
Definition sentinelNode {A} `{JsNum A} : Node A :=
  MkNode (lit (-9944)) (lit (-9999)) (lit (-9944)) (lit (-9999))
         (lit 0) (lit 0).

(** Draws that make fifteen candidates [(0.5, 0.5)], then the candidate
    [(0.3, 0.5)], then candidates [(0.1, 0.1)]. *)
Definition relaxRng {A} `{JsNum A} : Rng A :=
  MkRng (fun i => if (i <? 30)%nat then lit 0.5
                  else if (i =? 30)%nat then lit 0.3
                  else if (i =? 31)%nat then lit 0.5
                  else lit 0.1) 0.

(** A safe zone that covers the whole surface, and more. *)
Definition coveringCFG {A} `{JsNum A} : Banner.Config :=
  Banner.MkConfig 10 10 (lit 26) (lit 44) (lit 0.055) (lit 0.86) (lit 7.0)
    (lit 95) (lit 1.15) (lit 0.20) (lit (-1)) (lit 2) (lit (-1)) (lit 2).

(** The banner with the single node [pulledNode] in a single tree, and the
    single tree made of that node alone; pointer away, clock at zero. *)
Definition pulledBanner {A} `{JsNum A} : Banner.State :=
  Banner.MkState [Banner.MkTree (lit 0) (lit 0) (lit 1) [pulledNode]]
                 onLeave (lit 0).

Definition pulledTree {A} `{JsNum A} : TreeCanvas.State :=
  TreeCanvas.MkState [pulledNode] onLeave (lit 0).

(** The horizontal positions of the nodes of a state. *)
Definition bannerXs {A} (s : Banner.State (A := A)) : list (list A) :=
  map (fun t => map (@x A) (Banner.nodes t)) (Banner.trees s).

Definition treeXs {A} (s : TreeCanvas.State (A := A)) : list A :=
  map (@x A) (TreeCanvas.nodes s).

(** [lo < v < hi], decided in the number model. *)
Definition between {A} `{JsNum A} (lo v hi : A) : bool :=
  nlt lo v && nlt v hi.

(** All six fields of a binary64 node are finite. *)
Definition finiteFloats (n : Node PrimFloat.float) : bool :=
  forallb PrimFloat.is_finite [ax n; ay n; x n; y n; vx n; vy n].

(** ** Unfolding the arithmetic of the exact reals *)

Ltac js_real :=
  cbv [nadd nsub nmul ndiv nneg msqrt mmax mmin mfloor nlt neq truthy lit
       RNum orElse Q2R Qnum Qden inject_Z ofNat] in *.

(* ================================================================== *)
(** * Frame of the integrator *)

Section Frame.
Context {A : Type} `{JsNum A}.

Lemma forEach_length {X} (body : X -> Rand A X) (l : list X) (g : Rng A) :
  length (fst (forEach body l g)) = length l.
Proof.
  revert g; induction l as [|v l IH]; intros g; simpl; [reflexivity|].
  unfold bind. destruct (body v g) as [v' g1].
  specialize (IH g1). destruct (forEach body l g1) as [l' g2].
  simpl in *. now rewrite IH.
Qed.

(** A projection that every run of the body preserves is preserved
    element-wise by the loop. *)
Lemma forEach_preserves {X Y} (f : X -> Y) (body : X -> Rand A X) :
  (forall v g, f (fst (body v g)) = f v) ->
  forall l g, map f (fst (forEach body l g)) = map f l.
Proof.
  intros Hb l. induction l as [|v l IH]; intros g; simpl; [reflexivity|].
  unfold bind. specialize (Hb v g). destruct (body v g) as [v' g1].
  specialize (IH g1). destruct (forEach body l g1) as [l' g2].
  simpl in *. now rewrite Hb, IH.
Qed.

Lemma banner_stepNode_anchor cfg (m : Mouse A) dt n g :
  anchor (fst (Banner.stepNode cfg m dt n g)) = anchor n.
Proof.
  unfold Banner.stepNode, bind.
  destruct (Banner.repel cfg m n _ g) as [[vx1 vy1] g1]. reflexivity.
Qed.

Lemma banner_stepTree_frame cfg (m : Mouse A) dt t g :
  let t' := fst (Banner.stepTree cfg m dt t g) in
  Banner.cx t' = Banner.cx t /\ Banner.cy t' = Banner.cy t
  /\ Banner.scale t' = Banner.scale t
  /\ map anchor (Banner.nodes t') = map anchor (Banner.nodes t).
Proof.
  unfold Banner.stepTree, bind.
  pose proof (forEach_preserves anchor (Banner.stepNode cfg m dt)
                (fun v g => banner_stepNode_anchor cfg m dt v g)
                (Banner.nodes t) g) as Hn.
  destruct (forEach (Banner.stepNode cfg m dt) (Banner.nodes t) g) as [ns g1].
  simpl in *. auto.
Qed.

Lemma treeCanvas_stepNode_anchor cfg (m : Mouse A) dt n :
  anchor (TreeCanvas.stepNode cfg m dt n) = anchor n.
Proof.
  unfold TreeCanvas.stepNode.
  destruct (TreeCanvas.repel cfg m n _) as [vx1 vy1]. reflexivity.
Qed.

(** C9.  One call of [step] rewrites positions and velocities only.  In the
    banner the list of trees keeps its length, every tree keeps its centre
    and scale, and its nodes keep their number, order and anchors; in the
    single tree the list of nodes keeps its length and every node keeps its
    anchor.  This holds in every number model. *)
Theorem step_frame :
  (forall cfg (m : Mouse A) dt trees g,
      let trees' := fst (Banner.step cfg m dt trees g) in
      length trees' = length trees
      /\ map Banner.cx trees' = map Banner.cx trees
      /\ map Banner.cy trees' = map Banner.cy trees
      /\ map Banner.scale trees' = map Banner.scale trees
      /\ map (fun t => map anchor (Banner.nodes t)) trees'
         = map (fun t => map anchor (Banner.nodes t)) trees
      /\ map (fun t => length (Banner.nodes t)) trees'
         = map (fun t => length (Banner.nodes t)) trees)
  /\ (forall cfg (m : Mouse A) dt nodes,
      let nodes' := TreeCanvas.step cfg m dt nodes in
      length nodes' = length nodes
      /\ map anchor nodes' = map anchor nodes).
Proof.
  split.
  - intros cfg m dt trees g trees'. subst trees'. unfold Banner.step.
    pose proof (fun t g => banner_stepTree_frame cfg m dt t g) as Hf.
    cbv zeta in Hf.
    split; [apply forEach_length|].
    repeat split; apply forEach_preserves; intros t g0;
      destruct (Hf t g0) as (Hx & Hy & Hs & Ha); auto.
    rewrite <- (length_map anchor), Ha. apply length_map.
  - intros cfg m dt nodes nodes'. subst nodes'. unfold TreeCanvas.step.
    split; [apply length_map|].
    rewrite map_map. apply map_ext. intros n.
    apply treeCanvas_stepNode_anchor.
Qed.

End Frame.

(* ================================================================== *)
(** * Exact reals: comparisons *)

Local Open Scope R_scope.

Lemma Rltb_true a b : Rltb a b = true <-> a < b.
Proof. unfold Rltb. destruct (Rlt_dec a b); split; intros; auto; discriminate. Qed.

Lemma Rltb_false a b : Rltb a b = false <-> b <= a.
Proof.
  unfold Rltb. destruct (Rlt_dec a b); split; intros; auto; try discriminate; lra.
Qed.

Lemma Reqb_true a b : Reqb a b = true <-> a = b.
Proof. unfold Reqb. destruct (Req_dec_T a b); split; intros; auto; discriminate. Qed.

Lemma Reqb_false a b : Reqb a b = false <-> a <> b.
Proof.
  unfold Reqb. destruct (Req_dec_T a b); split; intros; auto; try discriminate.
  contradiction.
Qed.

(** Decides the comparisons of a goal whose outcome [lra] can tell. *)
Ltac r_decide :=
  repeat match goal with
  | |- context [Rltb ?a ?b] =>
      first [ replace (Rltb a b) with true by (symmetry; apply Rltb_true; lra)
            | replace (Rltb a b) with false by (symmetry; apply Rltb_false; lra) ]
  | |- context [Reqb ?a ?b] =>
      first [ replace (Reqb a b) with true by (symmetry; apply Reqb_true; lra)
            | replace (Reqb a b) with false by (symmetry; apply Reqb_false; lra) ]
  end.

(* ================================================================== *)
(** * Speed clamp *)

Lemma clamp_bounds (v lo hi : R) :
  lo <= hi -> lo <= Banner.clamp v lo hi <= hi.
Proof.
  intros Hle. unfold Banner.clamp. js_real.
  split; [apply Rmax_l|].
  apply Rmax_lub; [exact Hle | apply Rmin_l].
Qed.

Lemma forEach_Forall {A X} (P : X -> Prop) (body : X -> Rand A X) :
  (forall v g, P (fst (body v g))) ->
  forall l g, Forall P (fst (forEach body l g)).
Proof.
  intros Hb l. induction l as [|v l IH]; intros g; simpl; [constructor|].
  unfold bind. specialize (Hb v g). destruct (body v g) as [v' g1].
  specialize (IH g1). destruct (forEach body l g1) as [l' g2].
  simpl in *. now constructor.
Qed.

(** The velocity that the damping and the cap of the banner receive: the
    node's velocity after the spring and the repulsion. *)
Lemma banner_stepNode_fields cfg (m : Mouse R) dt n g :
  let n' := fst (Banner.stepNode cfg m dt n g) in
  let v1 := fst (Banner.repel cfg m n
                   (vx n + (ax n - x n) * Banner.spring cfg,
                    vy n + (ay n - y n) * Banner.spring cfg) g) in
  vx n' = Banner.clamp (fst v1 * Banner.damping cfg)
            (- Banner.maxSpeed cfg) (Banner.maxSpeed cfg)
  /\ vy n' = Banner.clamp (snd v1 * Banner.damping cfg)
            (- Banner.maxSpeed cfg) (Banner.maxSpeed cfg)
  /\ x n' = x n + vx n' * (dt * 60)
  /\ y n' = y n + vy n' * (dt * 60).
Proof.
  unfold Banner.stepNode, bind. js_real.
  destruct (Banner.repel cfg m n _ g) as [[vx1 vy1] g1]. simpl.
  repeat split; lra.
Qed.

Lemma banner_stepNode_speed cfg (m : Mouse R) dt n g :
  0 <= Banner.maxSpeed cfg ->
  speedWithin (Banner.maxSpeed cfg) (fst (Banner.stepNode cfg m dt n g)).
Proof.
  intros HM.
  destruct (banner_stepNode_fields cfg m dt n g) as (Hx & Hy & _).
  cbv zeta in Hx, Hy. unfold speedWithin. rewrite Hx, Hy.
  split; apply clamp_bounds; lra.
Qed.

Lemma treeCanvas_stepNode_fields cfg (m : Mouse R) dt n :
  let n' := TreeCanvas.stepNode cfg m dt n in
  let v1 := TreeCanvas.repel cfg m n
              (vx n + (ax n - x n) * TreeCanvas.returnStrength cfg,
               vy n + (ay n - y n) * TreeCanvas.returnStrength cfg) in
  vx n' = fst v1 * TreeCanvas.damping cfg
  /\ vy n' = snd v1 * TreeCanvas.damping cfg
  /\ x n' = x n + vx n' * (dt * 60)
  /\ y n' = y n + vy n' * (dt * 60).
Proof.
  unfold TreeCanvas.stepNode. js_real.
  destruct (TreeCanvas.repel cfg m n _) as [vx1 vy1]. simpl.
  repeat split; lra.
Qed.

(** ** The pointer out of reach *)

Lemma dist_ge (n : Node R) (m : Mouse R) (r : R) :
  0 <= r ->
  r * r <= (x n - mouse_x m) * (x n - mouse_x m)
           + (y n - mouse_y m) * (y n - mouse_y m) ->
  r <= dist n m.
Proof.
  intros Hr Hs. unfold dist.
  rewrite <- (sqrt_square r Hr). now apply sqrt_le_1_alt.
Qed.


(** The single tree: beyond the radius the block changes nothing, whatever
    [active] says. *)
Lemma treeCanvas_repel_far cfg (m : Mouse R) n v :
  TreeCanvas.repelRadius cfg <= dist n m ->
  TreeCanvas.repel cfg m n v = v.
Proof.
  intros Hd. unfold TreeCanvas.repel. destruct v as [vx0 vy0]. js_real.
  fold (dist n m).
  replace (Rltb (dist n m) (TreeCanvas.repelRadius cfg)) with false
    by (symmetry; now apply Rltb_false).
  reflexivity.
Qed.

(** The banner: an inactive pointer changes nothing and draws nothing. *)
Lemma banner_repel_inactive {A} `{JsNum A} cfg (m : Mouse A) n v g :
  active m = false ->
  Banner.repel cfg m n v g = (v, g).
Proof.
  intros Ha. unfold Banner.repel. destruct v as [vx0 vy0].
  rewrite Ha. reflexivity.
Qed.

(** The banner: an active pointer beyond the radius changes nothing and
    draws nothing. *)
Lemma banner_repel_far cfg (m : Mouse R) n v g :
  Banner.hoverRadius cfg <= dist n m ->
  Banner.repel cfg m n v g = (v, g).
Proof.
  intros Hd. unfold Banner.repel. destruct v as [vx0 vy0].
  destruct (active m); [|reflexivity]. js_real. fold (dist n m).
  replace (Rltb (dist n m) (Banner.hoverRadius cfg)) with false
    by (symmetry; now apply Rltb_false).
  reflexivity.
Qed.

(** C4, as stated, fails in the single tree: the node [farNode], 1000 units
    from its anchor, leaves one tick (pointer away) with [vx = 51.6], far
    above the cap [7.0] of the banner, the only [maxSpeed] of the
    repository. *)
Lemma treeCanvas_speed_unclamped :
  let n' := TreeCanvas.stepNode TreeCanvas.CFG onLeave (1 / 60)
              (farNode : Node R) in
  vx n' = 51.6 /\ ~ speedWithin (Banner.maxSpeed Banner.CFG) n'.
Proof.
  pose proof (treeCanvas_stepNode_fields TreeCanvas.CFG onLeave (1 / 60)
                (farNode : Node R)) as Hf.
  cbv zeta in *. destruct Hf as (Hx & _).
  rewrite treeCanvas_repel_far in Hx.
  - assert (Hv : vx (TreeCanvas.stepNode TreeCanvas.CFG onLeave (1 / 60)
                       (farNode : Node R)) = 51.6).
    { rewrite Hx. simpl. js_real. lra. }
    split; [exact Hv|].
    unfold speedWithin. rewrite Hv. simpl. js_real. lra.
  - apply dist_ge; simpl; js_real; lra.
Qed.

(** C4 (amended).  Banner: whenever [maxSpeed] is not negative, after a call
    of [step] both velocity components of every node of every tree lie in
    [[-maxSpeed, maxSpeed]]; each is the clamp of the damped velocity, and
    the position is advanced with the clamped velocity.  Single tree: there
    is no cap; the new velocity is the damped velocity. *)
Theorem speed_clamp (cfg : Banner.Config) :
  0 <= Banner.maxSpeed cfg ->
  (forall (m : Mouse R) dt trees g,
      Forall (fun t => Forall (speedWithin (Banner.maxSpeed cfg)) (Banner.nodes t))
             (fst (Banner.step cfg m dt trees g)))
  /\ (forall (m : Mouse R) dt n g,
      let n' := fst (Banner.stepNode cfg m dt n g) in
      let v1 := fst (Banner.repel cfg m n
                       (vx n + (ax n - x n) * Banner.spring cfg,
                        vy n + (ay n - y n) * Banner.spring cfg) g) in
      vx n' = Banner.clamp (fst v1 * Banner.damping cfg)
                (- Banner.maxSpeed cfg) (Banner.maxSpeed cfg)
      /\ vy n' = Banner.clamp (snd v1 * Banner.damping cfg)
                (- Banner.maxSpeed cfg) (Banner.maxSpeed cfg)
      /\ x n' = x n + vx n' * (dt * 60)
      /\ y n' = y n + vy n' * (dt * 60))
  /\ (forall cfgB (m : Mouse R) dt n,
      let n' := TreeCanvas.stepNode cfgB m dt n in
      let v1 := TreeCanvas.repel cfgB m n
                  (vx n + (ax n - x n) * TreeCanvas.returnStrength cfgB,
                   vy n + (ay n - y n) * TreeCanvas.returnStrength cfgB) in
      vx n' = fst v1 * TreeCanvas.damping cfgB
      /\ vy n' = snd v1 * TreeCanvas.damping cfgB
      /\ x n' = x n + vx n' * (dt * 60)
      /\ y n' = y n + vy n' * (dt * 60)).
Proof.
  intros HM. split; [|split].
  - intros m dt trees g. unfold Banner.step.
    apply forEach_Forall. intros t g0. unfold Banner.stepTree, bind.
    pose proof (forEach_Forall (speedWithin (Banner.maxSpeed cfg))
                  (Banner.stepNode cfg m dt)
                  (fun v g1 => banner_stepNode_speed cfg m dt v g1 HM)
                  (Banner.nodes t) g0) as Hn.
    destruct (forEach (Banner.stepNode cfg m dt) (Banner.nodes t) g0).
    exact Hn.
  - intros m dt n g. apply banner_stepNode_fields.
  - intros cfgB m dt n. apply treeCanvas_stepNode_fields.
Qed.

Lemma speed_clamp_witness :
  0 <= Banner.maxSpeed (Banner.CFG (A := R))
  /\ Forall (fun t => Forall (speedWithin 7) (Banner.nodes t))
       (fst (Banner.step Banner.CFG onLeave (1 / 60)
               [Banner.MkTree 0 0 1 [farNode]] (constRng (1 / 2)))).
Proof.
  assert (HM : 0 <= Banner.maxSpeed (Banner.CFG (A := R)))
    by (simpl; js_real; lra).
  split; [exact HM|].
  replace 7 with (Banner.maxSpeed (Banner.CFG (A := R)))
    by (simpl; js_real; lra).
  apply (proj1 (speed_clamp Banner.CFG HM)).
Defined.

(* ================================================================== *)
(** * Repulsion force law *)

Lemma dist_eq (n : Node R) (m : Mouse R) (r : R) :
  0 <= r ->
  (x n - mouse_x m) * (x n - mouse_x m)
  + (y n - mouse_y m) * (y n - mouse_y m) = r * r ->
  dist n m = r.
Proof. intros Hr Hs. unfold dist. rewrite Hs. now apply sqrt_square. Qed.

Lemma dist_sqr (n : Node R) (m : Mouse R) :
  dist n m * dist n m
  = (x n - mouse_x m) * (x n - mouse_x m)
    + (y n - mouse_y m) * (y n - mouse_y m).
Proof.
  unfold dist. apply sqrt_sqrt.
  pose proof (Rle_0_sqr (x n - mouse_x m)) as Hx.
  pose proof (Rle_0_sqr (y n - mouse_y m)) as Hy.
  unfold Rsqr in *. lra.
Qed.

(** Away from the pointer the direction is a unit vector. *)
Lemma direction_unit (n : Node R) (m : Mouse R) :
  0 < dist n m ->
  fst (direction n m) * fst (direction n m)
  + snd (direction n m) * snd (direction n m) = 1.
Proof.
  intros Hd. unfold direction. js_real. simpl.
  replace (Reqb (dist n m) 0) with false
    by (symmetry; apply Reqb_false; lra).
  simpl. pose proof (dist_sqr n m) as Hs.
  set (d := dist n m) in *. set (dx := x n - mouse_x m) in *.
  set (dy := y n - mouse_y m) in *.
  replace (dx / d * (dx / d) + dy / d * (dy / d))
    with ((dx * dx + dy * dy) / (d * d)) by (field; lra).
  rewrite <- Hs. field. lra.
Qed.


Lemma banner_repelForce_eq cfg (d : R) :
  Banner.repelForce cfg d
  = (1 - d / Banner.hoverRadius cfg) ^ 2 * Banner.repelStrength cfg.
Proof. unfold Banner.repelForce. js_real. lra. Qed.

Lemma treeCanvas_repelForce_eq cfg (d : R) :
  TreeCanvas.repelForce cfg d
  = (1 - d / TreeCanvas.repelRadius cfg) * TreeCanvas.repelStrength cfg.
Proof. unfold TreeCanvas.repelForce. js_real. lra. Qed.

(** Closeness [t = 1 - d / R] grows as [d] shrinks. *)
Lemma closeness_mono (radius d1 d2 : R) :
  0 < radius -> d1 < d2 -> d2 < radius ->
  0 < 1 - d2 / radius < 1 - d1 / radius.
Proof.
  intros HR H12 H2.
  assert (Hi : 0 < / radius) by now apply Rinv_0_lt_compat.
  assert (H1 : d2 / radius < 1).
  { apply (Rmult_lt_reg_r radius); [lra|]. unfold Rdiv.
    rewrite Rmult_assoc, Rinv_l by lra. lra. }
  unfold Rdiv. nra.
Qed.

Lemma banner_repelForce_mono cfg (d1 d2 : R) :
  0 < Banner.hoverRadius cfg -> 0 < Banner.repelStrength cfg ->
  d1 < d2 -> d2 < Banner.hoverRadius cfg ->
  Banner.repelForce cfg d2 < Banner.repelForce cfg d1.
Proof.
  intros HR Hs H12 H2. rewrite !banner_repelForce_eq.
  pose proof (closeness_mono HR H12 H2) as Ht.
  set (t1 := 1 - d1 / Banner.hoverRadius cfg) in *.
  set (t2 := 1 - d2 / Banner.hoverRadius cfg) in *.
  assert (Hsq : t2 * t2 < t1 * t1) by nra.
  replace (t2 ^ 2) with (t2 * t2) by ring.
  replace (t1 ^ 2) with (t1 * t1) by ring.
  now apply Rmult_lt_compat_r.
Qed.

Lemma treeCanvas_repelForce_mono cfg (d1 d2 : R) :
  0 < TreeCanvas.repelRadius cfg -> 0 < TreeCanvas.repelStrength cfg ->
  d1 < d2 -> d2 < TreeCanvas.repelRadius cfg ->
  TreeCanvas.repelForce cfg d2 < TreeCanvas.repelForce cfg d1.
Proof.
  intros HR Hs H12 H2. rewrite !treeCanvas_repelForce_eq.
  pose proof (closeness_mono HR H12 H2) as Ht.
  apply Rmult_lt_compat_r; lra.
Qed.

(** The banner, pointer active and within the radius: the push along the
    direction, scaled by [16 f], then the jitter of two draws. *)
Lemma banner_repel_near cfg (m : Mouse R) n v g :
  active m = true -> dist n m < Banner.hoverRadius cfg ->
  Banner.repel cfg m n v g
  = ((fst v + fst (direction n m) * Banner.repelForce cfg (dist n m) * 16
      + (draws g (used g) - 0.5) * Banner.noiseStrength cfg,
      snd v + snd (direction n m) * Banner.repelForce cfg (dist n m) * 16
      + (draws g (S (used g)) - 0.5) * Banner.noiseStrength cfg),
     MkRng (draws g) (S (S (used g)))).
Proof.
  intros Ha Hd. unfold Banner.repel, direction. destruct v as [vx0 vy0].
  rewrite Ha. js_real. fold (dist n m).
  replace (Rltb (dist n m) (Banner.hoverRadius cfg)) with true
    by (symmetry; now apply Rltb_true).
  unfold bind, random, ret. simpl. f_equal. f_equal; lra.
Qed.

(** The single tree, pointer within the radius: the push along the
    direction, scaled by [18 f]. *)
Lemma treeCanvas_repel_near cfg (m : Mouse R) n v :
  dist n m < TreeCanvas.repelRadius cfg ->
  TreeCanvas.repel cfg m n v
  = (fst v + fst (direction n m) * TreeCanvas.repelForce cfg (dist n m) * 18,
     snd v + snd (direction n m) * TreeCanvas.repelForce cfg (dist n m) * 18).
Proof.
  intros Hd. unfold TreeCanvas.repel, direction. destruct v as [vx0 vy0].
  js_real. fold (dist n m).
  replace (Rltb (dist n m) (TreeCanvas.repelRadius cfg)) with true
    by (symmetry; now apply Rltb_true).
  simpl. f_equal; lra.
Qed.

(** C3, as stated, fails in the single tree, whose falloff is linear: with
    the pointer active at [(-55, 100)] the node [pulledNode] at [(0, 100)]
    is at distance 55, half the radius; the force factor is
    [0.5 * 0.55 = 0.275], not [0.5^2 * 0.55 = 0.1375], and the push is
    [18 * 0.275 = 4.95]. *)
Lemma treeCanvas_force_not_quadratic :
  let m : Mouse R := onMove (-55) 100 in
  let d := dist pulledNode m in
  let t := 1 - d / TreeCanvas.repelRadius TreeCanvas.CFG in
  d = 55
  /\ TreeCanvas.repelForce TreeCanvas.CFG d = 0.275
  /\ t ^ 2 * TreeCanvas.repelStrength TreeCanvas.CFG = 0.1375
  /\ TreeCanvas.repel TreeCanvas.CFG m pulledNode (0, 0) = (4.95, 0).
Proof.
  cbv zeta.
  assert (Hd : dist (pulledNode : Node R) (onMove (-55) 100) = 55).
  { apply dist_eq; simpl; js_real; lra. }
  rewrite Hd. split; [reflexivity|].
  split; [rewrite treeCanvas_repelForce_eq; simpl; js_real; lra|].
  split; [simpl; js_real; lra|].
  rewrite treeCanvas_repel_near by (rewrite Hd; simpl; js_real; lra).
  unfold direction. rewrite Hd, treeCanvas_repelForce_eq. simpl. js_real.
  replace (Reqb 55 0) with false by (symmetry; apply Reqb_false; lra).
  simpl. f_equal; lra.
Qed.

(** C3 (amended).  For positive radius and strength.  Banner: the force
    factor is [t^2 * repelStrength] with [t = 1 - d / hoverRadius]; single
    tree: it is [t * repelStrength] with [t = 1 - d / repelRadius], a linear
    falloff.  In both the factor does not shrink as the distance shrinks
    within the radius; a node within the radius is pushed along the
    direction from the pointer by 16 (banner, pointer active, followed by
    the jitter) or 18 (single tree) times the factor, the direction being
    a unit vector when the distance is not zero; and a node at distance
    [>= R] receives nothing.  In binary64, with the configured constants,
    the factor grows strictly from each whole number of pixels to the one
    below, down from the radius to zero, but not between any two
    distances: it is the same at 50 (single tree) and at 34 (banner) as at
    the next double above. *)
Theorem repulsion_law (cfgA : Banner.Config) (cfgB : TreeCanvas.Config) :
  0 < Banner.hoverRadius cfgA -> 0 < Banner.repelStrength cfgA ->
  0 < TreeCanvas.repelRadius cfgB -> 0 < TreeCanvas.repelStrength cfgB ->
  (forall d : R,
      Banner.repelForce cfgA d
      = (1 - d / Banner.hoverRadius cfgA) ^ 2 * Banner.repelStrength cfgA)
  /\ (forall d1 d2 : R,
      0 <= d1 -> d1 <= d2 -> d2 < Banner.hoverRadius cfgA ->
      Banner.repelForce cfgA d2 <= Banner.repelForce cfgA d1)
  /\ (forall (m : Mouse R) n v g,
      active m = true -> dist n m < Banner.hoverRadius cfgA ->
      Banner.repel cfgA m n v g
      = ((fst v + fst (direction n m) * Banner.repelForce cfgA (dist n m) * 16
          + (draws g (used g) - 0.5) * Banner.noiseStrength cfgA,
          snd v + snd (direction n m) * Banner.repelForce cfgA (dist n m) * 16
          + (draws g (S (used g)) - 0.5) * Banner.noiseStrength cfgA),
         MkRng (draws g) (S (S (used g)))))
  /\ (forall (m : Mouse R) n v g,
      Banner.hoverRadius cfgA <= dist n m ->
      Banner.repel cfgA m n v g = (v, g))
  /\ (forall d : R,
      TreeCanvas.repelForce cfgB d
      = (1 - d / TreeCanvas.repelRadius cfgB) * TreeCanvas.repelStrength cfgB)
  /\ (forall d1 d2 : R,
      0 <= d1 -> d1 <= d2 -> d2 < TreeCanvas.repelRadius cfgB ->
      TreeCanvas.repelForce cfgB d2 <= TreeCanvas.repelForce cfgB d1)
  /\ (forall (m : Mouse R) n v,
      dist n m < TreeCanvas.repelRadius cfgB ->
      TreeCanvas.repel cfgB m n v
      = (fst v + fst (direction n m) * TreeCanvas.repelForce cfgB (dist n m) * 18,
         snd v + snd (direction n m) * TreeCanvas.repelForce cfgB (dist n m) * 18))
  /\ (forall (m : Mouse R) n v,
      TreeCanvas.repelRadius cfgB <= dist n m ->
      TreeCanvas.repel cfgB m n v = v)
  /\ (forall (n : Node R) (m : Mouse R),
      0 < dist n m ->
      fst (direction n m) * fst (direction n m)
      + snd (direction n m) * snd (direction n m) = 1)
  /\ forallb (fun i : nat =>
                nlt (Banner.repelForce Banner.CFG (ofNat (S i) : PrimFloat.float))
                    (Banner.repelForce Banner.CFG (ofNat i)))
             (seq 0 95) = true
  /\ forallb (fun i : nat =>
                nlt (TreeCanvas.repelForce TreeCanvas.CFG
                       (ofNat (S i) : PrimFloat.float))
                    (TreeCanvas.repelForce TreeCanvas.CFG (ofNat i)))
             (seq 0 110) = true
  /\ (nlt (lit 34) (PrimFloat.next_up (lit 34)) = true
      /\ neq (Banner.repelForce Banner.CFG (lit 34))
             (Banner.repelForce Banner.CFG (PrimFloat.next_up (lit 34))) = true)
  /\ (nlt (lit 50) (PrimFloat.next_up (lit 50)) = true
      /\ neq (TreeCanvas.repelForce TreeCanvas.CFG (lit 50))
             (TreeCanvas.repelForce TreeCanvas.CFG
                (PrimFloat.next_up (lit 50))) = true).
Proof.
  intros HRA HsA HRB HsB.
  split; [intros; apply banner_repelForce_eq|].
  split.
  { intros d1 d2 _ H12 H2. destruct H12 as [H12 | ->]; [|apply Rle_refl].
    left. now apply banner_repelForce_mono. }
  split; [intros; now apply banner_repel_near|].
  split; [intros; now apply banner_repel_far|].
  split; [intros; apply treeCanvas_repelForce_eq|].
  split.
  { intros d1 d2 _ H12 H2. destruct H12 as [H12 | ->]; [|apply Rle_refl].
    left. now apply treeCanvas_repelForce_mono. }
  split; [intros; now apply treeCanvas_repel_near|].
  split; [intros; now apply treeCanvas_repel_far|].
  split; [intros; now apply direction_unit|].
  vm_compute. repeat split.
Qed.

Lemma repulsion_law_witness :
  Banner.repelForce Banner.CFG (50 : R) <= Banner.repelForce Banner.CFG (10 : R)
  /\ TreeCanvas.repelForce TreeCanvas.CFG (50 : R)
     <= TreeCanvas.repelForce TreeCanvas.CFG (10 : R).
Proof.
  assert (HRA : 0 < Banner.hoverRadius (Banner.CFG (A := R)))
    by (simpl; js_real; lra).
  assert (HsA : 0 < Banner.repelStrength (Banner.CFG (A := R)))
    by (simpl; js_real; lra).
  assert (HRB : 0 < TreeCanvas.repelRadius (TreeCanvas.CFG (A := R)))
    by (simpl; js_real; lra).
  assert (HsB : 0 < TreeCanvas.repelStrength (TreeCanvas.CFG (A := R)))
    by (simpl; js_real; lra).
  pose proof (repulsion_law Banner.CFG TreeCanvas.CFG HRA HsA HRB HsB)
    as (_ & HmA & _ & _ & _ & HmB & _).
  split.
  - apply HmA; [lra | lra | simpl; js_real; lra].
  - apply HmB; [lra | lra | simpl; js_real; lra].
Defined.

(* ================================================================== *)
(** * The inactive pointer *)

(** The banner reads [active] first: with the pointer inactive the stored
    coordinates are never looked at, and no draw is made.  This holds in
    every number model. *)
Theorem banner_inactive_pointer_ignored {A} `{JsNum A}
  cfg (px py qx qy dt : A) (n : Node A) (g : Rng A) :
  Banner.stepNode cfg (MkMouse px py false) dt n g
  = Banner.stepNode cfg (MkMouse qx qy false) dt n g
  /\ snd (Banner.stepNode cfg (MkMouse px py false) dt n g) = g.
Proof.
  unfold Banner.stepNode, bind.
  rewrite !banner_repel_inactive by reflexivity. split; reflexivity.
Qed.

(** [step] of the single tree never reads [active].  On a state that the
    script does not reach (see [inactive_pointer_repels_nothing]), a node
    at rest 55 units from the sentinel that [onLeave] stores, the inactive
    pointer pushes the node by [18 * 0.275 = 4.95]: the node leaves the
    tick with velocity [4.257]. *)
Lemma treeCanvas_step_ignores_active :
  active (onLeave : Mouse R) = false
  /\ dist sentinelNode onLeave = 55
  /\ TreeCanvas.repel TreeCanvas.CFG onLeave sentinelNode (0, 0) = (4.95, 0)
  /\ TreeCanvas.step TreeCanvas.CFG onLeave (1 / 60) [sentinelNode]
     = [MkNode (-9944) (-9999) (-9939.743) (-9999) 4.257 0].
Proof.
  assert (Hd : dist (sentinelNode : Node R) onLeave = 55).
  { apply dist_eq; simpl; js_real; lra. }
  assert (Hr : forall vx0 vy0 : R,
             TreeCanvas.repel TreeCanvas.CFG onLeave sentinelNode (vx0, vy0)
             = (vx0 + 4.95, vy0)).
  { intros vx0 vy0.
    rewrite treeCanvas_repel_near by (rewrite Hd; simpl; js_real; lra).
    unfold direction. rewrite Hd, treeCanvas_repelForce_eq. simpl. js_real.
    replace (Reqb 55 0) with false by (symmetry; apply Reqb_false; lra).
    simpl. f_equal; lra. }
  split; [reflexivity|]. split; [exact Hd|].
  split; [rewrite Hr; f_equal; lra|].
  unfold TreeCanvas.step. cbn [map]. unfold TreeCanvas.stepNode.
  rewrite Hr. simpl. js_real. f_equal. f_equal; lra.
Qed.

(* ================================================================== *)
(** * The pointer on a node *)

(** [d || 1] is never zero. *)
Lemma orElse_one_nonzero (d : R) : orElse d (lit 1) <> 0.
Proof.
  unfold orElse. js_real. unfold Reqb.
  destruct (Req_dec_T d 0); simpl; lra.
Qed.

Lemma sum_sqr_nonneg (a b : R) : 0 <= a * a + b * b.
Proof.
  pose proof (Rle_0_sqr a). pose proof (Rle_0_sqr b). unfold Rsqr in *. lra.
Qed.

Ltac real_ops :=
  cbn [nadd nsub nmul ndiv nneg msqrt mmax mmin nlt lit RNum].

(** The statements of this section are about the doubles themselves: the
    operations are the kernel's binary64 operations, specified by the
    IEEE-754 functions of [SpecFloat]. *)
Section Binary64.
Import FloatAxioms SpecFloat FloatOps PrimFloat.













(** ** The range of a double

    What rounding does to the magnitude of a sum, a difference and a
    product, read off the specification of the operations: a number under
    [2 ^ K] is a zero, or a mantissa and an exponent [e] with
    [digits m + e <= K]. *)

Lemma SFeqb_refl (a : spec_float) : a <> S754_nan -> SFeqb a a = true.
Proof.
  destruct a as [s|s| |s m e]; intros Hn; try congruence.
  - reflexivity.
  - destruct s; reflexivity.
  - unfold SFeqb, SFcompare.
    assert (He : IntDef.Z.compare e e = Eq) by apply Z.compare_refl.
    assert (Hm : PosDef.Pos.compare_cont Eq m m = Eq)
      by apply Pos.compare_cont_refl.
    destruct s; rewrite He; unfold CompOpp; try rewrite Hm; try reflexivity.
Qed.

(** There is one NaN. *)
Lemma is_nan_eq (a : float) : is_nan a = true <-> a = nan.
Proof.
  split.
  - unfold is_nan. rewrite eqb_spec. intros Hn.
    apply Prim2SF_inj. change (Prim2SF nan) with S754_nan.
    destruct (Prim2SF a) eqn:Ha; try reflexivity;
      rewrite SFeqb_refl in Hn by congruence; discriminate.
  - intros ->. reflexivity.
Qed.

Unset Implicit Arguments.

Section Range.
Local Open Scope Z_scope.









































End Range.

Set Implicit Arguments.

Local Open Scope js_scope.



(** The arithmetic of the spring can overflow by itself: with the anchor at
    [2^1023] and the node at [-2^1023], all fields finite but out of the
    range above, the tick of the single tree leaves the velocity and the
    position infinite, wherever the pointer is. *)
Example float_overflow_on_pointer :
  let big := Z.ldexp one 1023 in
  let n := MkNode big (lit 0) (- big) (lit 0) (lit 0) (lit 0) in
  finiteFloats n = true
  /\ nodeWithin farthest n = false
  /\ vx (TreeCanvas.stepNode TreeCanvas.CFG (MkMouse (x n) (y n) true)
           (lit (1 # 60)) n) = infinity
  /\ vx (TreeCanvas.stepNode TreeCanvas.CFG onLeave (lit (1 # 60)) n) = infinity.
Proof. vm_compute. repeat split. Qed.

End Binary64.

(* ================================================================== *)
(** * Placement of a tree centre *)

Section Placement.
Context {A : Type} {num : JsNum A}.
Variables (cfg : Banner.Config (A := A)) (W H : A).

(** The two [return]s of the loop body amount to one test. *)
Lemma accepts_body (tries : nat) (nx ny : A) :
  accepts cfg tries (nx, ny)
  = (negb (Banner.inSafeBox cfg nx ny) && Banner.edgeBias nx ny)
    || (negb (Banner.inSafeBox cfg nx ny) && (15 <? tries)%nat).
Proof.
  unfold accepts. cbn [fst snd].
  destruct (Banner.inSafeBox cfg nx ny), (Banner.edgeBias nx ny),
    (15 <? tries)%nat; reflexivity.
Qed.

Lemma candidate_shift (g : Rng A) (j : nat) :
  candidate (MkRng (draws g) (S (S (used g)))) j = candidate g (S j).
Proof.
  unfold candidate. cbn [draws used].
  replace (S (S (used g)) + 2 * j)%nat with (used g + 2 * S j)%nat by lia.
  reflexivity.
Qed.

Lemma candidate_first (g : Rng A) :
  candidate g 0 = (draws g (used g), draws g (S (used g))).
Proof.
  unfold candidate.
  replace (used g + 2 * 0)%nat with (used g) by lia.
  replace (used g + 1)%nat with (S (used g)) by lia.
  reflexivity.
Qed.

(** One iteration of the loop. *)
Lemma chooseLoop_S (left tries : nat) (g : Rng A) :
  Banner.chooseLoop cfg W H (S left) tries g
  = if accepts cfg tries (candidate g 0)
    then (Some (scaled W H (candidate g 0)), MkRng (draws g) (S (S (used g))))
    else Banner.chooseLoop cfg W H left (S tries)
           (MkRng (draws g) (S (S (used g)))).
Proof.
  rewrite candidate_first, accepts_body.
  change (Banner.chooseLoop cfg W H (S left) tries g)
    with (let nx := draws g (used g) in
          let ny := draws g (S (used g)) in
          let g2 := MkRng (draws g) (S (S (used g))) in
          (if negb (Banner.inSafeBox cfg nx ny) && Banner.edgeBias nx ny
           then ret (Some (nmul nx W, nmul ny H))
           else if negb (Banner.inSafeBox cfg nx ny) && (15 <? tries)%nat
           then ret (Some (nmul nx W, nmul ny H))
           else Banner.chooseLoop cfg W H left (S tries)) g2).
  cbv zeta. unfold scaled. cbn [fst snd].
  destruct (negb (Banner.inSafeBox cfg (draws g (used g)) (draws g (S (used g))))
            && Banner.edgeBias (draws g (used g)) (draws g (S (used g))));
    [reflexivity|].
  destruct (negb (Banner.inSafeBox cfg (draws g (used g)) (draws g (S (used g))))
            && (15 <? tries)%nat); reflexivity.
Qed.

(** What the loop returns: the first accepted candidate among the next
    [left], scaled to the surface, or nothing when all of them fail.  Two
    draws are made per candidate examined. *)
Lemma chooseLoop_spec (left : nat) :
  forall (tries : nat) (g : Rng A),
    let r := Banner.chooseLoop cfg W H left tries g in
    draws (snd r) = draws g
    /\ match fst r with
       | Some c =>
           exists k, (k < left)%nat
             /\ used (snd r) = (used g + 2 * (k + 1))%nat
             /\ c = scaled W H (candidate g k)
             /\ accepts cfg (tries + k) (candidate g k) = true
             /\ forall j, (j < k)%nat ->
                          accepts cfg (tries + j) (candidate g j) = false
       | None =>
           used (snd r) = (used g + 2 * left)%nat
           /\ forall j, (j < left)%nat ->
                        accepts cfg (tries + j) (candidate g j) = false
       end.
Proof.
  induction left as [|left IH]; intros tries g.
  - cbn. split; [reflexivity|]. split; [lia|]. intros j Hj. lia.
  - cbv zeta. rewrite chooseLoop_S.
    destruct (accepts cfg tries (candidate g 0)) eqn:Hacc.
    + cbn [fst snd draws used]. split; [reflexivity|]. exists 0%nat.
      rewrite Nat.add_0_r. repeat split; try lia; try exact Hacc.
    + specialize (IH (S tries) (MkRng (draws g) (S (S (used g))))).
      cbv zeta in IH. destruct IH as [Hd IH].
      split; [exact Hd|].
      destruct (fst (Banner.chooseLoop cfg W H left (S tries)
                       (MkRng (draws g) (S (S (used g)))))) as [c|].
      * destruct IH as (k & Hk & Hu & Hc & Ha & Hb).
        exists (S k). rewrite candidate_shift in Hc, Ha.
        cbn [used] in Hu.
        replace (tries + S k)%nat with (S tries + k)%nat by lia.
        repeat split; try lia; try assumption.
        intros [|j] Hj.
        -- rewrite Nat.add_0_r. exact Hacc.
        -- replace (tries + S j)%nat with (S tries + j)%nat by lia.
           rewrite <- candidate_shift. apply Hb. lia.
      * destruct IH as (Hu & Hb). cbn [used] in Hu.
        split; [lia|].
        intros [|j] Hj.
        -- rewrite Nat.add_0_r. exact Hacc.
        -- replace (tries + S j)%nat with (S tries + j)%nat by lia.
           rewrite <- candidate_shift. apply Hb. lia.
Qed.

(** The candidate that the loop returns is determined: the first one
    accepted. *)
Lemma chooseLoop_first (left tries k : nat) (g : Rng A) :
  (k < left)%nat ->
  accepts cfg (tries + k) (candidate g k) = true ->
  (forall j, (j < k)%nat -> accepts cfg (tries + j) (candidate g j) = false) ->
  Banner.chooseLoop cfg W H left tries g
  = (Some (scaled W H (candidate g k)),
     MkRng (draws g) (used g + 2 * (k + 1))).
Proof.
  intros Hk Ha Hb.
  pose proof (chooseLoop_spec left tries g) as Hs. cbv zeta in Hs.
  destruct (Banner.chooseLoop cfg W H left tries g) as [[c|] g'];
    cbn [fst snd] in Hs; destruct Hs as [Hd Hs].
  - destruct Hs as (k' & Hk' & Hu & Hc & Ha' & Hb').
    assert (k' = k).
    { destruct (Nat.lt_trichotomy k' k) as [Hlt|[Heq|Hgt]]; [|exact Heq|].
      - rewrite (Hb k' Hlt) in Ha'. discriminate.
      - rewrite (Hb' k Hgt) in Ha. discriminate. }
    subst k'. destruct g' as [dr us]. cbn [draws used] in *.
    subst. reflexivity.
  - destruct Hs as [_ Hb']. rewrite (Hb' k Hk) in Ha. discriminate.
Qed.

Lemma chooseLoop_none (left tries : nat) (g : Rng A) :
  (forall j, (j < left)%nat -> accepts cfg (tries + j) (candidate g j) = false) ->
  Banner.chooseLoop cfg W H left tries g
  = (None, MkRng (draws g) (used g + 2 * left)).
Proof.
  intros Hb.
  pose proof (chooseLoop_spec left tries g) as Hs. cbv zeta in Hs.
  destruct (Banner.chooseLoop cfg W H left tries g) as [[c|] g'];
    cbn [fst snd] in Hs; destruct Hs as [Hd Hs].
  - destruct Hs as (k & Hk & _ & _ & Ha & _).
    rewrite (Hb k Hk) in Ha. discriminate.
  - destruct Hs as [Hu _]. destruct g' as [dr us]. cbn [draws used] in *.
    subst. reflexivity.
Qed.

(** [chooseTreeCenter]: either one of the forty candidates is returned, or
    all forty have failed and the forty-first point drawn is returned as it
    is. *)
Lemma chooseTreeCenter_spec (g : Rng A) :
  let r := Banner.chooseTreeCenter cfg W H g in
  (exists k, (k < 40)%nat
     /\ used (snd r) = (used g + 2 * (k + 1))%nat
     /\ fst r = scaled W H (candidate g k)
     /\ accepts cfg k (candidate g k) = true
     /\ forall j, (j < k)%nat -> accepts cfg j (candidate g j) = false)
  \/ (used (snd r) = (used g + 82)%nat
      /\ fst r = scaled W H (candidate g 40)
      /\ forall j, (j < 40)%nat -> accepts cfg j (candidate g j) = false).
Proof.
  unfold Banner.chooseTreeCenter, bind.
  pose proof (chooseLoop_spec 40 0 g) as Hs. cbv zeta in Hs.
  destruct (Banner.chooseLoop cfg W H 40 0 g) as [[c|] g'];
    cbn [fst snd] in Hs; destruct Hs as [Hd Hs].
  - left. destruct Hs as (k & Hk & Hu & Hc & Ha & Hb).
    exists k. cbn. auto.
  - right. destruct Hs as [Hu Hb]. unfold random, ret. cbn.
    split; [lia|]. split; [|exact Hb].
    unfold scaled, candidate. cbn [fst snd].
    rewrite Hd, Hu. do 2 f_equal; f_equal; lia.
Qed.

End Placement.

(** The tests of a candidate, in the exact reals. *)
Lemma inSafeBox_true (cfg : Banner.Config) (nx ny : R) :
  Banner.inSafeBox cfg nx ny = true
  <-> (Banner.safeCenterXMin cfg < nx < Banner.safeCenterXMax cfg
       /\ Banner.safeCenterYMin cfg < ny < Banner.safeCenterYMax cfg).
Proof.
  unfold Banner.inSafeBox. js_real.
  rewrite !andb_true_iff, !Rltb_true. tauto.
Qed.

Lemma edgeBias_true (nx ny : R) :
  Banner.edgeBias nx ny = true
  <-> (nx < 0.2 \/ nx > 0.8 \/ ny < 0.25 \/ ny > 0.85).
Proof.
  unfold Banner.edgeBias. js_real.
  rewrite !orb_true_iff, !Rltb_true.
  replace (2 / 10) with 0.2 by lra. replace (8 / 10) with 0.8 by lra.
  replace (25 / 100) with 0.25 by lra. replace (85 / 100) with 0.85 by lra.
  unfold Rgt. tauto.
Qed.

(** A draw of [[0, 1)] scaled to a side lies on the side. *)
Lemma scaled_inside (W H : R) (c : R * R) :
  0 < W -> 0 < H ->
  0 <= fst c < 1 -> 0 <= snd c < 1 ->
  (0 <= fst (scaled W H c) < W) /\ (0 <= snd (scaled W H c) < H).
Proof.
  intros HW HH Hx Hy. unfold scaled. cbn [fst snd]. js_real. split; nra.
Qed.

(** C6.  For draws in [[0, 1)] and a surface of positive sides, whatever
    the safe zone: [chooseTreeCenter] returns a point of the surface; it
    returns either one of the first forty candidates, having drawn no
    further, or, all forty having failed, the next point drawn, taken as it
    is; it makes at most [2 * 40 + 2] draws; and when the safe zone holds
    every point that can be drawn, it returns that forty-first point. *)
Theorem chooseTreeCenter_terminates_inside
  (cfg : Banner.Config) (W H : R) (g : Rng R) :
  (forall i, 0 <= draws g i < 1) -> 0 < W -> 0 < H ->
  let r := Banner.chooseTreeCenter cfg W H g in
  (0 <= fst (fst r) < W /\ 0 <= snd (fst r) < H)
  /\ ((exists k, (k < 40)%nat
         /\ used (snd r) = (used g + 2 * (k + 1))%nat
         /\ fst r = scaled W H (candidate g k)
         /\ accepts cfg k (candidate g k) = true
         /\ forall j, (j < k)%nat -> accepts cfg j (candidate g j) = false)
      \/ (used (snd r) = (used g + 82)%nat
          /\ fst r = scaled W H (candidate g 40)
          /\ forall j, (j < 40)%nat -> accepts cfg j (candidate g j) = false))
  /\ (used (snd r) <= used g + 82)%nat
  /\ ((forall nx ny : R, 0 <= nx < 1 -> 0 <= ny < 1 ->
                         Banner.inSafeBox cfg nx ny = true) ->
      fst r = scaled W H (candidate g 40)
      /\ used (snd r) = (used g + 82)%nat).
Proof.
  intros Hg HW HH r.
  pose proof (chooseTreeCenter_spec cfg W H g) as Hs. cbv zeta in Hs.
  fold r in Hs.
  assert (Hin : forall k, (0 <= fst (scaled W H (candidate g k)) < W)
                          /\ (0 <= snd (scaled W H (candidate g k)) < H)).
  { intros k. apply scaled_inside; auto; unfold candidate; cbn [fst snd];
      apply Hg. }
  split; [|split; [exact Hs|split]].
  - destruct Hs as [(k & _ & _ & Hc & _)|(_ & Hc & _)]; rewrite Hc; apply Hin.
  - destruct Hs as [(k & Hk & Hu & _)|(Hu & _)]; lia.
  - intros Hcover.
    destruct Hs as [(k & _ & _ & _ & Ha & _)|(Hu & Hc & _)]; [|auto].
    unfold accepts in Ha.
    rewrite Hcover in Ha by (unfold candidate; cbn [fst snd]; apply Hg).
    discriminate.
Qed.

Lemma chooseTreeCenter_terminates_inside_witness :
  let r := Banner.chooseTreeCenter coveringCFG 800 200 (constRng (1 / 2)) in
  (0 <= fst (fst r) < 800 /\ 0 <= snd (fst r) < 200)
  /\ used (snd r) = 82%nat.
Proof.
  assert (Hg : forall i, 0 <= draws (constRng (1 / 2)) i < 1)
    by (intros i; simpl; lra).
  assert (HW : 0 < 800) by lra.
  assert (HH : 0 < 200) by lra.
  pose proof (@chooseTreeCenter_terminates_inside coveringCFG 800 200
                (constRng (1 / 2)) Hg HW HH)
    as (Hin & _ & _ & Hcover).
  split; [exact Hin|].
  apply Hcover. intros nx ny Hx Hy. apply inSafeBox_true.
  simpl. js_real. lra.
Defined.

(** The candidates drawn from [relaxRng]. *)
Lemma relaxRng_candidates {A} `{JsNum A} :
  (forall j, (j < 15)%nat -> candidate relaxRng j = (lit 0.5, lit 0.5))
  /\ candidate relaxRng 15 = (lit 0.3, lit 0.5)
  /\ candidate relaxRng 16 = (lit 0.1, lit 0.1).
Proof.
  split; [|split; reflexivity].
  intros j Hj. unfold candidate, relaxRng. cbn [draws used].
  replace (0 + 2 * j <? 30)%nat with true by (symmetry; apply Nat.ltb_lt; lia).
  replace (0 + 2 * j + 1 <? 30)%nat with true
    by (symmetry; apply Nat.ltb_lt; lia).
  reflexivity.
Qed.

(** C7, as stated, fails at the sixteenth candidate.  From [relaxRng] the
    first fifteen candidates [(0.5, 0.5)] fail (they are in the safe zone);
    the sixteenth, [(0.3, 0.5)], is outside the safe zone of [CFG] and away
    from the edges: after fifteen failed tries it is still refused, and the
    seventeenth candidate [(0.1, 0.1)] is the one returned, scaled to the
    800 x 200 surface. *)
Lemma relaxation_not_after_15_failures :
  let g : Rng R := relaxRng in
  (forall j, (j < 15)%nat -> accepts Banner.CFG j (candidate g j) = false)
  /\ Banner.inSafeBox Banner.CFG (fst (candidate g 15)) (snd (candidate g 15))
     = false
  /\ scaled 800 200 (candidate g 15) = (240, 100)
  /\ fst (Banner.chooseTreeCenter Banner.CFG 800 200 g) = (80, 20).
Proof.
  cbv zeta. destruct (@relaxRng_candidates R _) as (Hearly & H15 & H16).
  assert (Hfail : forall j, (j < 15)%nat ->
            accepts Banner.CFG j (candidate (relaxRng : Rng R) j) = false).
  { intros j Hj. rewrite (Hearly j Hj). unfold accepts. cbn [fst snd].
    replace (Banner.inSafeBox Banner.CFG (lit 0.5 : R) (lit 0.5)) with true;
      [reflexivity|].
    symmetry. apply inSafeBox_true. simpl. js_real. lra. }
  assert (Hout : Banner.inSafeBox Banner.CFG (lit 0.3 : R) (lit 0.5) = false).
  { unfold Banner.inSafeBox. simpl. js_real. r_decide. reflexivity. }
  split; [exact Hfail|]. rewrite H15. cbn [fst snd].
  split; [exact Hout|].
  split; [unfold scaled; cbn [fst snd]; js_real; f_equal; lra|].
  unfold Banner.chooseTreeCenter, bind.
  rewrite (@chooseLoop_first R _ Banner.CFG 800 200 40 0 16).
  - rewrite H16. unfold ret, scaled. cbn [fst snd]. js_real. f_equal; lra.
  - lia.
  - rewrite H16. unfold accepts. cbn [fst snd].
    unfold Banner.inSafeBox, Banner.edgeBias. simpl. js_real. r_decide.
    reflexivity.
  - intros j Hj. destruct (Nat.eq_dec j 15) as [->|Hne].
    + rewrite H15. unfold accepts. cbn [fst snd]. rewrite Hout.
      unfold Banner.edgeBias. simpl. js_real. r_decide. reflexivity.
    + apply Hfail. lia.
Qed.

(** C7 (amended).  A centre returned from inside the loop is a candidate
    outside the safe zone; when it is one of the first sixteen candidates
    (loop index [tries <= 15], at most fifteen failures before it) it also
    satisfies the edge test; every candidate before it failed; and it is
    what [chooseTreeCenter] returns.  From the seventeenth candidate on
    (sixteen failures, [tries > 15]) the first candidate outside the safe
    zone is returned.  This holds in every number model. *)
Theorem accepted_center_outside_safe_zone {A} `{JsNum A}
  (cfg : Banner.Config) (W H0 : A) (g : Rng A) :
  let r := Banner.chooseLoop cfg W H0 40 0 g in
  match fst r with
  | Some c =>
      exists k, (k < 40)%nat
        /\ c = scaled W H0 (candidate g k)
        /\ fst (Banner.chooseTreeCenter cfg W H0 g) = c
        /\ used (snd r) = (used g + 2 * (k + 1))%nat
        /\ Banner.inSafeBox cfg (fst (candidate g k)) (snd (candidate g k))
           = false
        /\ ((k <= 15)%nat ->
            Banner.edgeBias (fst (candidate g k)) (snd (candidate g k)) = true)
        /\ forall j, (j < k)%nat -> accepts cfg j (candidate g j) = false
  | None => True
  end
  /\ forall k, (16 <= k < 40)%nat ->
       (forall j, (j < k)%nat -> accepts cfg j (candidate g j) = false) ->
       Banner.inSafeBox cfg (fst (candidate g k)) (snd (candidate g k)) = false ->
       fst (Banner.chooseTreeCenter cfg W H0 g) = scaled W H0 (candidate g k).
Proof.
  intros r. split.
  - pose proof (chooseLoop_spec cfg W H0 40 0 g) as [_ Hs].
    fold r in Hs. subst r.
    unfold Banner.chooseTreeCenter, bind.
    destruct (Banner.chooseLoop cfg W H0 40 0 g) as [[c|] g']; [|exact I].
    cbn [fst snd] in *. destruct Hs as (k & Hk & Hu & Hc & Ha & Hb).
    exists k. cbn [Nat.add] in Ha. unfold accepts in Ha.
    apply andb_true_iff in Ha. destruct Ha as [Hsafe Hedge].
    apply negb_true_iff in Hsafe.
    repeat split; auto.
    intros Hle. apply orb_true_iff in Hedge. destruct Hedge as [He|Ht]; auto.
    apply Nat.ltb_lt in Ht. lia.
  - intros k [Hk16 Hk40] Hfail Hout.
    unfold Banner.chooseTreeCenter, bind.
    rewrite (@chooseLoop_first A _ cfg W H0 40 0 k); auto.
    cbn [Nat.add]. unfold accepts. rewrite Hout.
    replace (15 <? k)%nat with true by (symmetry; apply Nat.ltb_lt; lia).
    cbn. apply orb_true_r.
Qed.

Lemma accepted_center_outside_safe_zone_witness :
  fst (Banner.chooseTreeCenter Banner.CFG (800 : R) 200
         (MkRng (fun i => if (i <? 32)%nat then lit 0.5 else lit 0.3) 0))
  = (0.3 * 800, 0.3 * 200).
Proof.
  set (g := MkRng (fun i => if (i <? 32)%nat then lit 0.5 else (lit 0.3 : R)) 0).
  assert (Hc : forall j, candidate g j
                = if (j <? 16)%nat then (lit 0.5, lit 0.5)
                  else (lit 0.3, lit 0.3)).
  { intros j. unfold candidate, g. cbn [draws used].
    destruct (Nat.ltb_spec j 16).
    - replace (0 + 2 * j <? 32)%nat with true
        by (symmetry; apply Nat.ltb_lt; lia).
      replace (0 + 2 * j + 1 <? 32)%nat with true
        by (symmetry; apply Nat.ltb_lt; lia).
      reflexivity.
    - replace (0 + 2 * j <? 32)%nat with false
        by (symmetry; apply Nat.ltb_ge; lia).
      replace (0 + 2 * j + 1 <? 32)%nat with false
        by (symmetry; apply Nat.ltb_ge; lia).
      reflexivity. }
  pose proof (accepted_center_outside_safe_zone Banner.CFG (800 : R) 200 g)
    as [_ Hrelax].
  rewrite (Hrelax 16%nat).
  - rewrite Hc. simpl. unfold scaled. cbn [fst snd]. js_real. f_equal; lra.
  - lia.
  - intros j Hj. rewrite Hc.
    replace (j <? 16)%nat with true by (symmetry; apply Nat.ltb_lt; lia).
    unfold accepts. cbn [fst snd].
    replace (Banner.inSafeBox Banner.CFG (lit 0.5 : R) (lit 0.5)) with true;
      [reflexivity|].
    symmetry. apply inSafeBox_true. simpl. js_real. lra.
  - rewrite Hc. simpl. unfold Banner.inSafeBox. simpl. js_real. r_decide.
    reflexivity.
Defined.

(* ================================================================== *)
(** * Links *)

Lemma link_drawn cfg (a b : Node R) :
  dist2 a b < TreeCanvas.linkDist cfg * TreeCanvas.linkDist cfg ->
  TreeCanvas.link cfg a b
  = [TreeCanvas.StrokeLine
       (TreeCanvas.linkAlpha cfg
        * (1 - dist2 a b / (TreeCanvas.linkDist cfg * TreeCanvas.linkDist cfg)))
       (x a) (y a) (x b) (y b)].
Proof.
  intros Hd. unfold TreeCanvas.link. js_real. fold (dist2 a b).
  replace (Rltb (dist2 a b) _) with true by (symmetry; now apply Rltb_true).
  do 2 f_equal. lra.
Qed.

Lemma link_not_drawn cfg (a b : Node R) :
  TreeCanvas.linkDist cfg * TreeCanvas.linkDist cfg <= dist2 a b ->
  TreeCanvas.link cfg a b = [].
Proof.
  intros Hd. unfold TreeCanvas.link. js_real. fold (dist2 a b).
  replace (Rltb (dist2 a b) _) with false by (symmetry; now apply Rltb_false).
  reflexivity.
Qed.

(** The nested loops visit every pair of positions [i < j], and nothing
    else. *)
Lemma links_pairs {A} `{JsNum A} cfg (nodes : list (Node A)) (c : TreeCanvas.Cmd) :
  In c (TreeCanvas.links cfg nodes)
  <-> exists i j a b, (i < j)%nat
        /\ nth_error nodes i = Some a /\ nth_error nodes j = Some b
        /\ In c (TreeCanvas.link cfg a b).
Proof.
  induction nodes as [|a0 rest IH]; cbn [TreeCanvas.links].
  - split; [intros []|]. intros (i & j & a & b & _ & Hi & _).
    destruct i; discriminate.
  - rewrite in_app_iff, in_flat_map, IH. split.
    + intros [(b & Hb & Hc)|(i & j & a & b & Hij & Hi & Hj & Hc)].
      * apply In_nth_error in Hb. destruct Hb as [j Hj].
        exists 0%nat, (S j), a0, b. repeat split; auto. lia.
      * exists (S i), (S j), a, b. repeat split; auto. lia.
    + intros (i & j & a & b & Hij & Hi & Hj & Hc).
      destruct j as [|j]; [lia|]. cbn [nth_error] in Hj.
      destruct i as [|i]; cbn [nth_error] in Hi.
      * injection Hi as ->. left. exists b. split; [|exact Hc].
        eapply nth_error_In; eauto.
      * right. exists i, j, a, b. repeat split; auto. lia.
Qed.

(** [draw] strokes the links and nothing more. *)
Lemma draw_strokes {A} `{JsNum A} cfg (W H0 : A) nodes al x1 y1 x2 y2 :
  In (TreeCanvas.StrokeLine al x1 y1 x2 y2) (TreeCanvas.draw cfg W H0 nodes)
  <-> In (TreeCanvas.StrokeLine al x1 y1 x2 y2) (TreeCanvas.links cfg nodes).
Proof.
  unfold TreeCanvas.draw. cbn [In]. rewrite in_app_iff, in_map_iff. split.
  - intros [Hc|[Hl|(n & Hn & _)]]; [discriminate|exact Hl|discriminate].
  - intros Hl. right. left. exact Hl.
Qed.

(** ** The three decimals of the stroke style *)

Lemma Rfloor_bounds (r : R) : Rfloor r <= r < Rfloor r + 1.
Proof.
  unfold Rfloor. destruct (base_Int_part r) as [Hlo Hhi]. lra.
Qed.

Lemma Rfloor_unique (r : R) (z : Z) : IZR z <= r < IZR z + 1 -> Rfloor r = IZR z.
Proof.
  intros [Hlo Hhi]. unfold Rfloor. f_equal. symmetry.
  apply Int_part_spec. lra.
Qed.

Lemma toFixed3_close (alpha : R) : Rabs (toFixed3 alpha - alpha) <= 1 / 2000.
Proof.
  unfold toFixed3.
  pose proof (Rfloor_bounds (alpha * 1000 + 1 / 2)) as [Hlo Hhi].
  apply Rabs_le. lra.
Qed.

Lemma toFixed3_thousandth (z : Z) : toFixed3 (IZR z / 1000) = IZR z / 1000.
Proof.
  unfold toFixed3. rewrite (@Rfloor_unique _ z); [reflexivity|lra].
Qed.

(** C8.  For a link distance that is not zero.  [draw] strokes exactly the
    links; the links are those of the pairs of positions [i < j]; the pair
    [(a, b)] gets one segment from [a] to [b] when [d2 < max2], with
    [alpha = linkAlpha * (1 - d2 / max2)], and none otherwise.  Two
    coincident nodes get [alpha = linkAlpha]; a pair exactly at the
    threshold gets no segment, the formula being zero there.  The stroke
    style carries [alpha] to three decimals, at most [0.0005] away; for the
    configured [linkAlpha = 0.22] that is [0.22] itself. *)
Theorem link_rendering (cfg : TreeCanvas.Config) :
  TreeCanvas.linkDist cfg <> 0 ->
  let max2 := TreeCanvas.linkDist cfg * TreeCanvas.linkDist cfg in
  (forall W H0 nodes al x1 y1 x2 y2,
      In (TreeCanvas.StrokeLine al x1 y1 x2 y2) (TreeCanvas.draw cfg W H0 nodes)
      <-> exists i j a b, (i < j)%nat
            /\ nth_error nodes i = Some a /\ nth_error nodes j = Some b
            /\ In (TreeCanvas.StrokeLine al x1 y1 x2 y2) (TreeCanvas.link cfg a b))
  /\ (forall a b : Node R,
      dist2 a b < max2 ->
      TreeCanvas.link cfg a b
      = [TreeCanvas.StrokeLine
           (TreeCanvas.linkAlpha cfg * (1 - dist2 a b / max2))
           (x a) (y a) (x b) (y b)])
  /\ (forall a b : Node R, max2 <= dist2 a b -> TreeCanvas.link cfg a b = [])
  /\ (forall a b : Node R,
      x a = x b -> y a = y b ->
      TreeCanvas.link cfg a b
      = [TreeCanvas.StrokeLine (TreeCanvas.linkAlpha cfg)
           (x a) (y a) (x b) (y b)])
  /\ (forall a b : Node R,
      dist2 a b = max2 ->
      TreeCanvas.link cfg a b = []
      /\ TreeCanvas.linkAlpha cfg * (1 - dist2 a b / max2) = 0)
  /\ (forall alpha : R, Rabs (toFixed3 alpha - alpha) <= 1 / 2000)
  /\ toFixed3 (TreeCanvas.linkAlpha TreeCanvas.CFG) = 0.22.
Proof.
  intros Hdist max2.
  assert (Hmax : 0 < max2).
  { subst max2. apply Rsqr_pos_lt in Hdist. exact Hdist. }
  split; [|split; [|split; [|split; [|split; [|split]]]]].
  - intros W H0 nodes al x1 y1 x2 y2. rewrite draw_strokes. apply links_pairs.
  - intros a b Hd. now apply link_drawn.
  - intros a b Hd. now apply link_not_drawn.
  - intros a b Hx Hy.
    assert (Hd : dist2 a b = 0) by (unfold dist2; rewrite Hx, Hy; ring).
    rewrite link_drawn by (fold max2; lra).
    rewrite Hd. do 2 f_equal. unfold Rdiv. ring.
  - intros a b Hd. split; [apply link_not_drawn; fold max2; lra|].
    rewrite Hd. unfold Rdiv. rewrite Rinv_r by lra. ring.
  - apply toFixed3_close.
  - replace (TreeCanvas.linkAlpha TreeCanvas.CFG) with (IZR 220 / 1000)
      by (simpl; js_real; lra).
    rewrite toFixed3_thousandth. lra.
Qed.

Lemma link_rendering_witness :
  TreeCanvas.link TreeCanvas.CFG (pulledNode : Node R) pulledNode
  = [TreeCanvas.StrokeLine 0.22 0 100 0 100]
  /\ TreeCanvas.link TreeCanvas.CFG (pulledNode : Node R)
       (MkNode 0 0 34 100 0 0) = [].
Proof.
  assert (Hdist : TreeCanvas.linkDist (TreeCanvas.CFG (A := R)) <> 0)
    by (simpl; js_real; lra).
  pose proof (link_rendering TreeCanvas.CFG Hdist)
    as (_ & _ & _ & Hsame & Hthr & _).
  split.
  - rewrite Hsame by reflexivity. simpl. js_real. do 2 f_equal; lra.
  - apply Hthr. unfold dist2. simpl. js_real. lra.
Defined.

(* ================================================================== *)
(** * Statistical placement *)

Lemma makeNode_atRest (px py : R) : atRest (TreeCanvas.makeNode px py).
Proof. unfold atRest, TreeCanvas.makeNode. simpl. js_real. lra. Qed.

(** The rejection loop returns a draw that is not zero, and does return
    when there is one among the next [fuel]. *)
Lemma drawNonZero_spec (fuel : nat) :
  forall g : Rng R,
    let r := TreeCanvas.drawNonZero fuel g in
    draws (snd r) = draws g
    /\ match fst r with
       | Some u => u <> 0
       | None => True
       end
    /\ ((exists j, (j < fuel)%nat /\ draws g (used g + j) <> 0) ->
        fst r <> None).
Proof.
  induction fuel as [|fuel IH]; intros g; cbn [TreeCanvas.drawNonZero].
  - cbn. split; [reflexivity|]. split; [exact I|]. intros (j & Hj & _). lia.
  - unfold bind, random. cbn [neq RNum lit].
    destruct (Reqb (draws g (used g)) (Q2R 0)) eqn:Hz.
    + specialize (IH (MkRng (draws g) (S (used g)))). cbv zeta in IH.
      destruct IH as (Hd & Hu & IH). split; [exact Hd|]. split; [exact Hu|].
      intros (j & Hj & Hnz). apply IH. cbn [draws used].
      apply Reqb_true in Hz.
      destruct j as [|j].
      * rewrite Nat.add_0_r in Hnz. exfalso. apply Hnz. rewrite Hz.
        unfold Q2R. simpl. lra.
      * exists j. split; [lia|].
        replace (S (used g) + j)%nat with (used g + S j)%nat by lia.
        exact Hnz.
    + cbn. split; [reflexivity|]. apply Reqb_false in Hz. split.
      * intros H0. apply Hz. rewrite H0. unfold Q2R. simpl. lra.
      * intros _. discriminate.
Qed.

Lemma yields_ret {X} fuel (P : X -> Prop) (v : X) :
  P v -> yields fuel P (ret (Some v)).
Proof. intros Hv g. cbn. repeat split; auto. discriminate. Qed.

Lemma yields_bindO {X Y} fuel (P : X -> Prop) (Q : Y -> Prop) c k :
  yields fuel P c -> (forall v, P v -> yields fuel Q (k v)) ->
  yields fuel Q (bindO c k).
Proof.
  intros Hc Hk g. unfold bindO, bind.
  destruct (Hc g) as (Hd & Hp & Hs).
  destruct (c g) as [[v|] g1]; cbn [fst snd] in *.
  - destruct (Hk v Hp g1) as (Hd' & Hq & Hs').
    split; [congruence|]. split; [exact Hq|].
    intros Hz. apply Hs'. unfold zeroRunsBelow in *. rewrite Hd. exact Hz.
  - cbn. split; [exact Hd|]. split; [exact I|].
    intros Hz _. now apply (Hs Hz).
Qed.

Lemma yields_random {Y} fuel (Q : Y -> Prop) (k : R -> Rand R (option Y)) :
  (forall t, yields fuel Q (k t)) -> yields fuel Q (bind random k).
Proof.
  intros Hk g. unfold bind, random.
  destruct (Hk (draws g (used g)) (MkRng (draws g) (S (used g))))
    as (Hd & Hq & Hs).
  cbn [draws] in *. repeat split; auto.
Qed.

Lemma yields_drawNonZero fuel :
  yields fuel (fun u => u <> 0) (TreeCanvas.drawNonZero fuel).
Proof.
  intros g. destruct (drawNonZero_spec fuel g) as (Hd & Hu & Hs).
  cbv zeta in *. split; [exact Hd|]. split; [exact Hu|].
  intros Hz. apply Hs. apply Hz.
Qed.

Lemma yields_randn fuel : yields fuel (fun _ => True) (TreeCanvas.randn fuel).
Proof.
  unfold TreeCanvas.randn.
  eapply yields_bindO; [apply yields_drawNonZero|]. intros u _.
  eapply yields_bindO; [apply yields_drawNonZero|]. intros v _.
  now apply yields_ret.
Qed.

Lemma yields_canopy (W H0 : R) fuel left :
  yields fuel (fun ns => length ns = left /\ Forall atRest ns)
    (TreeCanvas.canopy W H0 fuel left).
Proof.
  induction left as [|left IH]; cbn [TreeCanvas.canopy].
  - apply yields_ret. split; [reflexivity|constructor].
  - apply yields_random. intros t.
    eapply yields_bindO; [apply yields_randn|]. intros gv _.
    eapply yields_bindO; [apply IH|]. intros ns [Hlen Hrest].
    apply yields_ret. split; [cbn; now rewrite Hlen|].
    constructor; [apply makeNode_atRest|exact Hrest].
Qed.

Lemma yields_trunk cfg (W H0 : R) fuel left :
  forall i,
    yields fuel (fun ns => length ns = left /\ Forall atRest ns)
      (TreeCanvas.trunk cfg W H0 fuel left i).
Proof.
  induction left as [|left IH]; intros i; cbn [TreeCanvas.trunk].
  - apply yields_ret. split; [reflexivity|constructor].
  - eapply yields_bindO; [apply yields_randn|]. intros gv _.
    eapply yields_bindO; [apply IH|]. intros ns [Hlen Hrest].
    apply yields_ret. split; [cbn; now rewrite Hlen|].
    constructor; [apply makeNode_atRest|exact Hrest].
Qed.

Lemma yields_buildTree cfg (W H0 : R) fuel :
  yields fuel
    (fun ns => length ns
               = (TreeCanvas.canopyNodes cfg + TreeCanvas.trunkNodes cfg)%nat
               /\ Forall atRest ns)
    (TreeCanvas.buildTree cfg W H0 fuel).
Proof.
  unfold TreeCanvas.buildTree.
  eapply yields_bindO; [apply yields_canopy|]. intros cs [Hc Hcr].
  eapply yields_bindO; [apply yields_trunk|]. intros ts [Ht Htr].
  apply yields_ret. split.
  - rewrite length_app. now rewrite Hc, Ht.
  - apply Forall_app. split; assumption.
Qed.

(** C10.  Whenever [resize] (run at start-up and on every resize event)
    returns, the nodes it built are [canopyNodes + trunkNodes] in number and
    every one of them is at rest: at its anchor, with zero velocity.  It
    does return as soon as the zero runs of the draws are shorter than the
    bound put on the loops of [randn]. *)
Theorem buildTree_nodes_at_rest cfg (width height : R) (fuel : nat) (g : Rng R) :
  match fst (TreeCanvas.resize cfg width height fuel g) with
  | Some (_, _, ns) =>
      length ns = (TreeCanvas.canopyNodes cfg + TreeCanvas.trunkNodes cfg)%nat
      /\ Forall atRest ns
  | None => True
  end
  /\ (zeroRunsBelow fuel g ->
      fst (TreeCanvas.resize cfg width height fuel g) <> None).
Proof.
  assert (Hy : yields fuel
                 (fun r : R * R * list (Node R) =>
                    let '(_, _, ns) := r in
                    length ns = (TreeCanvas.canopyNodes cfg
                                 + TreeCanvas.trunkNodes cfg)%nat
                    /\ Forall atRest ns)
                 (TreeCanvas.resize cfg width height fuel)).
  { unfold TreeCanvas.resize.
    eapply yields_bindO; [apply yields_buildTree|]. intros ns Hns.
    now apply yields_ret. }
  destruct (Hy g) as (_ & Hp & Hs). split; [|exact Hs].
  destruct (fst (TreeCanvas.resize cfg width height fuel g)) as [[[W H0] ns]|];
    [exact Hp|exact I].
Qed.

Lemma buildTree_nodes_at_rest_witness :
  zeroRunsBelow 1 (constRng (1 / 2))
  /\ fst (TreeCanvas.resize TreeCanvas.CFG 800 600 1 (constRng (1 / 2))) <> None.
Proof.
  assert (Hz : zeroRunsBelow 1 (constRng (1 / 2))).
  { intros i. exists 0%nat. split; [lia|]. simpl. lra. }
  split; [exact Hz|].
  apply (proj2 (buildTree_nodes_at_rest TreeCanvas.CFG 800 600 1
                  (constRng (1 / 2)))).
  exact Hz.
Defined.

(* ================================================================== *)
(** * The inactive pointer of the single tree *)

(** [step] of the single tree does not read [active]: what keeps an
    inactive pointer from pushing is the sentinel that [onLeave] stores,
    far from every node.  The nodes are placed on the surface and the
    spring holds them near their anchors; this section bounds how far the
    pointer and the frames can take them. *)

Unset Implicit Arguments.







(** ** Placement on draws of [Math.random] *)

Lemma yieldsOnUnit_ret {X} (P : X -> Prop) (v : X) :
  P v -> yieldsOnUnit P (ret (Some v)).
Proof. intros Hv g _. cbn. auto. Qed.

Lemma yieldsOnUnit_bindO {X Y} (P : X -> Prop) (Q : Y -> Prop) c k :
  yieldsOnUnit P c -> (forall v, P v -> yieldsOnUnit Q (k v)) ->
  yieldsOnUnit Q (bindO c k).
Proof.
  intros Hc Hk g Hg. unfold bindO, bind.
  destruct (Hc g Hg) as (Hd & Hp).
  destruct (c g) as [[v|] g1]; cbn [fst snd] in *.
  - assert (Hg1 : unitDraws g1) by (unfold unitDraws; rewrite Hd; exact Hg).
    destruct (Hk v Hp g1 Hg1) as (Hd' & Hq). split; [congruence|exact Hq].
  - cbn. auto.
Qed.

Lemma yieldsOnUnit_random {Y} (Q : Y -> Prop) (k : R -> Rand R (option Y)) :
  (forall t, 0 <= t < 1 -> yieldsOnUnit Q (k t)) ->
  yieldsOnUnit Q (bind random k).
Proof.
  intros Hk g Hg. unfold bind, random.
  destruct (Hk (draws g (used g)) (Hg _) (MkRng (draws g) (S (used g))))
    as (Hd & Hq); [exact Hg|].
  cbn [draws] in *. auto.
Qed.

Lemma yieldsOnUnit_any {X} fuel (P : X -> Prop) c :
  yields fuel P c -> yieldsOnUnit P c.
Proof. intros Hy g _. destruct (Hy g) as (Hd & Hp & _). auto. Qed.

Lemma ofNat_real (i : nat) : (ofNat i : R) = INR i.
Proof.
  unfold ofNat. js_real. cbn [Z.mul]. rewrite INR_IZR_INZ. cbn. lra.
Qed.

Lemma surfaceSide_ge1 (side : R) : 1 <= surfaceSide side.
Proof.
  unfold surfaceSide. js_real. replace (1 * / 1) with 1 by lra. apply Rmax_l.
Qed.

(** The canopy nodes are placed at rest between 20% and 85% of the height. *)
Lemma yields_canopy_band (W H0 : R) fuel left :
  0 < H0 ->
  yieldsOnUnit (Forall (fun n => atRest n /\ 0.2 * H0 <= ay n <= 0.85 * H0))
    (TreeCanvas.canopy W H0 fuel left).
Proof.
  intros HH. induction left as [|left IH]; cbn [TreeCanvas.canopy].
  - apply yieldsOnUnit_ret. constructor.
  - apply yieldsOnUnit_random. intros t Ht.
    eapply yieldsOnUnit_bindO; [apply (yieldsOnUnit_any fuel), yields_randn|].
    intros gv _.
    eapply yieldsOnUnit_bindO; [apply IH|]. intros ns Hns.
    apply yieldsOnUnit_ret. constructor; [|exact Hns].
    split; [apply makeNode_atRest|].
    unfold TreeCanvas.makeNode. cbn [ay]. js_real. split; nra.
Qed.

(** The trunk nodes are placed at rest between 33% and 88% of the height. *)
Lemma yields_trunk_band cfg (W H0 : R) fuel left :
  0 < H0 ->
  forall i, (i + left <= TreeCanvas.trunkNodes cfg)%nat ->
    yieldsOnUnit (Forall (fun n => atRest n /\ 0.33 * H0 <= ay n <= 0.88 * H0))
      (TreeCanvas.trunk cfg W H0 fuel left i).
Proof.
  intros HH. induction left as [|left IH]; intros i Hi; cbn [TreeCanvas.trunk].
  - apply yieldsOnUnit_ret. constructor.
  - eapply yieldsOnUnit_bindO; [apply (yieldsOnUnit_any fuel), yields_randn|].
    intros gv _.
    eapply yieldsOnUnit_bindO; [apply IH; lia|]. intros ns Hns.
    apply yieldsOnUnit_ret. constructor; [|exact Hns].
    split; [apply makeNode_atRest|].
    unfold TreeCanvas.makeNode. cbn [ay]. rewrite !ofNat_real. js_real.
    replace (1 * / 1) with 1 by lra.
    set (count := TreeCanvas.trunkNodes cfg) in *.
    assert (Hm : 1 <= Rmax 1 (INR count - 1)) by apply Rmax_l.
    assert (Hm' : INR count - 1 <= Rmax 1 (INR count - 1)) by apply Rmax_r.
    assert (Hj0 : 0 <= INR i) by apply pos_INR.
    assert (Hj1 : INR i <= INR count - 1).
    { assert (Hlt : (S i <= count)%nat) by lia.
      apply le_INR in Hlt. rewrite S_INR in Hlt. lra. }
    assert (Ht : 0 <= INR i / Rmax 1 (INR count - 1) <= 1).
    { split.
      - apply Rmult_le_pos; [lra|]. left. apply Rinv_0_lt_compat. lra.
      - apply (Rmult_le_reg_r (Rmax 1 (INR count - 1))); [lra|].
        unfold Rdiv. rewrite Rmult_assoc, Rinv_l by lra. lra. }
    split; nra.
Qed.

Lemma yields_buildTree_band cfg (W H0 : R) fuel :
  0 < H0 ->
  yieldsOnUnit (Forall (fun n => atRest n /\ 0.2 * H0 <= ay n <= 0.88 * H0))
    (TreeCanvas.buildTree cfg W H0 fuel).
Proof.
  intros HH. unfold TreeCanvas.buildTree.
  eapply yieldsOnUnit_bindO; [now apply yields_canopy_band|]. intros cs Hcs.
  eapply yieldsOnUnit_bindO; [apply yields_trunk_band; [exact HH|lia]|].
  intros ts Hts. apply yieldsOnUnit_ret. apply Forall_app. split.
  - eapply Forall_impl; [|exact Hcs]. intros n (Hr & Hlo & Hhi).
    split; [exact Hr|]. split; lra.
  - eapply Forall_impl; [|exact Hts]. intros n (Hr & Hlo & Hhi).
    split; [exact Hr|]. split; lra.
Qed.

Lemma yields_resize_band cfg (width height : R) fuel :
  yieldsOnUnit (fun r : R * R * list (Node R) =>
                  let '(W, H0, ns) := r in
                  W = surfaceSide width /\ H0 = surfaceSide height
                  /\ Forall (fun n => atRest n
                                      /\ 0.2 * H0 <= ay n <= 0.88 * H0) ns)
    (TreeCanvas.resize cfg width height fuel).
Proof.
  unfold TreeCanvas.resize.
  eapply yieldsOnUnit_bindO.
  - apply yields_buildTree_band. pose proof (surfaceSide_ge1 height). lra.
  - intros ns Hns. apply yieldsOnUnit_ret. auto.
Qed.

(** ** The size of the push *)




(** ** One tick of a node in range *)





(** ** The pages that can be reached *)




(** Why the frames are asked to be timely.  In binary64: a node at rest at
    [(400, 300)], the pointer 10 px below it for three frames 16 ms apart,
    then gone; after 42 rounds of thirteen frames 1 ms apart and six frames
    at the cap of 33 ms, 798 frames in all, the node is more than 10000 px
    above its anchor.  Frames that close are not damped by the spring as
    [step] integrates it, and nothing then keeps a node away from the
    sentinel. *)
Example untimely_frames_leave_the_range :
  let n0 : Node PrimFloat.float := TreeCanvas.makeNode (lit 400) (lit 300) in
  let s1 := TreeCanvas.frames TreeCanvas.CFG (lit 800) (lit 600)
              [lit 16; lit 32; lit 48]
              (TreeCanvas.MkState [n0] (onMove (lit 400) (lit 310)) (lit 0)) in
  let s2 := TreeCanvas.frames TreeCanvas.CFG (lit 800) (lit 600)
              (untimelyStamps 42)
              (TreeCanvas.MkState (TreeCanvas.nodes s1) onLeave
                 (TreeCanvas.lastT s1)) in
  map (fun n => nlt (nsub (y n) (ay n)) (lit (-10000))) (TreeCanvas.nodes s2)
  = [true].
Proof. vm_compute. reflexivity. Qed.



Lemma unitDraws_half : unitDraws (constRng (1 / 2)).
Proof. intros i. cbn. lra. Qed.



Set Implicit Arguments.

(* ================================================================== *)
(** * Subdividing the time *)

Ltac r_minmax :=
  repeat match goal with
  | |- context [Rmin ?a ?b] =>
      first [ rewrite (Rmin_left a b) by lra | rewrite (Rmin_right a b) by lra ]
  | |- context [Rmax ?a ?b] =>
      first [ rewrite (Rmax_left a b) by lra | rewrite (Rmax_right a b) by lra ]
  end.

(** One tick of a node of the banner, pointer inactive. *)
Lemma banner_stepNode_inactive cfg (m : Mouse R) dt n g :
  active m = false ->
  Banner.stepNode cfg m dt n g
  = (let vx' := Banner.clamp
                  ((vx n + (ax n - x n) * Banner.spring cfg) * Banner.damping cfg)
                  (- Banner.maxSpeed cfg) (Banner.maxSpeed cfg) in
     let vy' := Banner.clamp
                  ((vy n + (ay n - y n) * Banner.spring cfg) * Banner.damping cfg)
                  (- Banner.maxSpeed cfg) (Banner.maxSpeed cfg) in
     MkNode (ax n) (ay n) (x n + vx' * (dt * 60)) (y n + vy' * (dt * 60))
            vx' vy', g).
Proof.
  intros Ha. unfold Banner.stepNode, bind.
  rewrite banner_repel_inactive by exact Ha.
  unfold ret. js_real. cbv zeta. f_equal. f_equal; f_equal; lra.
Qed.

(** One tick of a node of the single tree, pointer out of reach. *)
Lemma treeCanvas_stepNode_far cfg (m : Mouse R) dt n :
  TreeCanvas.repelRadius cfg <= dist n m ->
  TreeCanvas.stepNode cfg m dt n
  = (let vx' := (vx n + (ax n - x n) * TreeCanvas.returnStrength cfg)
                * TreeCanvas.damping cfg in
     let vy' := (vy n + (ay n - y n) * TreeCanvas.returnStrength cfg)
                * TreeCanvas.damping cfg in
     MkNode (ax n) (ay n) (x n + vx' * (dt * 60)) (y n + vy' * (dt * 60))
            vx' vy').
Proof.
  intros Hd. unfold TreeCanvas.stepNode.
  rewrite treeCanvas_repel_far by exact Hd.
  js_real. cbv zeta. f_equal; f_equal; lra.
Qed.

(** The velocity that a tick leaves does not depend on the time step. *)
Lemma banner_velocity_dt_free cfg (m : Mouse R) dt1 dt2 n g :
  vx (fst (Banner.stepNode cfg m dt1 n g)) = vx (fst (Banner.stepNode cfg m dt2 n g))
  /\ vy (fst (Banner.stepNode cfg m dt1 n g)) = vy (fst (Banner.stepNode cfg m dt2 n g))
  /\ snd (Banner.stepNode cfg m dt1 n g) = snd (Banner.stepNode cfg m dt2 n g).
Proof.
  unfold Banner.stepNode, bind.
  destruct (Banner.repel cfg m n _ g) as [[vx1 vy1] g1]. cbn. auto.
Qed.

Lemma treeCanvas_velocity_dt_free cfg (m : Mouse R) dt1 dt2 n :
  vx (TreeCanvas.stepNode cfg m dt1 n) = vx (TreeCanvas.stepNode cfg m dt2 n)
  /\ vy (TreeCanvas.stepNode cfg m dt1 n) = vy (TreeCanvas.stepNode cfg m dt2 n).
Proof.
  unfold TreeCanvas.stepNode.
  destruct (TreeCanvas.repel cfg m n _) as [vx1 vy1]. cbn. auto.
Qed.

(** A node at rest stays at rest. *)
Lemma banner_stepNode_rest cfg (m : Mouse R) dt n g :
  0 <= Banner.maxSpeed cfg -> active m = false -> atRest n ->
  Banner.stepNode cfg m dt n g = (n, g).
Proof.
  intros HM Ha (Hx & Hy & Hvx & Hvy).
  rewrite banner_stepNode_inactive by exact Ha. cbv zeta.
  destruct n as [nax nay nx ny nvx nvy]. cbn [ax ay x y vx vy] in *. subst.
  unfold Banner.clamp. js_real.
  replace ((0 + (nax - nax) * Banner.spring cfg) * Banner.damping cfg)
    with 0 by ring.
  replace ((0 + (nay - nay) * Banner.spring cfg) * Banner.damping cfg)
    with 0 by ring.
  r_minmax. f_equal. f_equal; lra.
Qed.

Lemma treeCanvas_stepNode_rest cfg (m : Mouse R) dt n :
  TreeCanvas.repelRadius cfg <= dist n m -> atRest n ->
  TreeCanvas.stepNode cfg m dt n = n.
Proof.
  intros Hd (Hx & Hy & Hvx & Hvy).
  rewrite treeCanvas_stepNode_far by exact Hd. cbv zeta.
  destruct n as [nax nay nx ny nvx nvy]. cbn [ax ay x y vx vy] in *. subst.
  f_equal; ring.
Qed.

Lemma forEach_fixed {A X} (body : X -> Rand A X) (l : list X) :
  (forall v g, In v l -> body v g = (v, g)) ->
  forall g, forEach body l g = (l, g).
Proof.
  induction l as [|v l IH]; intros Hb g; cbn [forEach]; [reflexivity|].
  unfold bind. rewrite Hb by (left; reflexivity).
  rewrite IH by (intros; apply Hb; now right). reflexivity.
Qed.

Lemma banner_step_rest cfg (m : Mouse R) dt trees g :
  0 <= Banner.maxSpeed cfg -> active m = false ->
  Forall (fun t => Forall atRest (Banner.nodes t)) trees ->
  Banner.step cfg m dt trees g = (trees, g).
Proof.
  intros HM Ha Hrest. unfold Banner.step.
  apply forEach_fixed. intros t g0 Ht.
  rewrite Forall_forall in Hrest. specialize (Hrest t Ht).
  unfold Banner.stepTree, bind.
  rewrite forEach_fixed.
  - destruct t; reflexivity.
  - intros n g1 Hn. rewrite Forall_forall in Hrest.
    apply banner_stepNode_rest; auto.
Qed.

Lemma treeCanvas_step_rest cfg (m : Mouse R) dt nodes :
  Forall (fun n => atRest n /\ TreeCanvas.repelRadius cfg <= dist n m) nodes ->
  TreeCanvas.step cfg m dt nodes = nodes.
Proof.
  intros Hrest. unfold TreeCanvas.step.
  induction Hrest as [|n l [Hn Hd] Hl IH]; cbn [map]; [reflexivity|].
  rewrite treeCanvas_stepNode_rest by assumption. now rewrite IH.
Qed.

Lemma last_cons {X} (l : list X) :
  forall a d, last (a :: l) d = last l a.
Proof.
  induction l as [|b l IH]; intros a d; [reflexivity|].
  change (last (a :: b :: l) d) with (last (b :: l) d).
  rewrite (IH b d). symmetry. apply IH.
Qed.

Lemma banner_frames_rest cfg (m : Mouse R) trees (ts : list R) :
  0 <= Banner.maxSpeed cfg -> active m = false ->
  Forall (fun t => Forall atRest (Banner.nodes t)) trees ->
  forall t0 g,
    Banner.frames cfg ts (Banner.MkState trees m t0) g
    = (Banner.MkState trees m (last ts t0), g).
Proof.
  intros HM Ha Hrest.
  induction ts as [|t ts IH]; intros t0 g; cbn [Banner.frames]; [reflexivity|].
  unfold bind, Banner.loop, bind. cbn [Banner.trees Banner.mouse Banner.lastT].
  rewrite banner_step_rest by assumption. unfold ret. rewrite IH.
  now rewrite last_cons.
Qed.

Lemma treeCanvas_frames_rest cfg (W H0 : R) (m : Mouse R) nodes (ts : list R) :
  Forall (fun n => atRest n /\ TreeCanvas.repelRadius cfg <= dist n m) nodes ->
  forall t0,
    TreeCanvas.frames cfg W H0 ts (TreeCanvas.MkState nodes m t0)
    = TreeCanvas.MkState nodes m (last ts t0).
Proof.
  intros Hrest.
  induction ts as [|t ts IH]; intros t0; cbn [TreeCanvas.frames]; [reflexivity|].
  unfold TreeCanvas.loop.
  cbn [fst TreeCanvas.nodes TreeCanvas.mouse TreeCanvas.lastT].
  rewrite treeCanvas_step_rest by assumption. rewrite IH.
  now rewrite last_cons.
Qed.

(** One frame of a banner of one node. *)
Lemma banner_frame_single {A} `{JsNum A} cfg (m : Mouse A) c1 c2 sc n t t0 ts g :
  let dt := mmin (lit 0.033) (ndiv (nsub t t0) (lit 1000)) in
  Banner.frames cfg (t :: ts)
    (Banner.MkState [Banner.MkTree c1 c2 sc [n]] m t0) g
  = Banner.frames cfg ts
      (Banner.MkState
         [Banner.MkTree c1 c2 sc [fst (Banner.stepNode cfg m dt n g)]] m t)
      (snd (Banner.stepNode cfg m dt n g)).
Proof.
  cbv zeta. cbn [Banner.frames]. unfold bind at 1.
  unfold Banner.loop, bind, Banner.step, Banner.stepTree.
  cbn [forEach Banner.trees Banner.mouse Banner.lastT Banner.nodes
       Banner.cx Banner.cy Banner.scale].
  unfold bind.
  destruct (Banner.stepNode cfg m _ n g) as [n' g']. reflexivity.
Qed.

(** One frame of a single tree of one node. *)
Lemma treeCanvas_frame_single {A} `{JsNum A} cfg (W H0 : A) (m : Mouse A)
  n t t0 ts :
  let dt := mmin (lit 0.033) (ndiv (nsub t t0) (lit 1000)) in
  TreeCanvas.frames cfg W H0 (t :: ts) (TreeCanvas.MkState [n] m t0)
  = TreeCanvas.frames cfg W H0 ts
      (TreeCanvas.MkState [TreeCanvas.stepNode cfg m dt n] m t).
Proof. reflexivity. Qed.

(** C1, as stated, fails in both programs.  The node [pulledNode] starts at
    rest at [x = 0], 100 units from its anchor; the pointer is away; the
    clock runs from 0 to 20 ms.  With one frame (step 0.02 s) the banner
    leaves it at [x = 5.676] and the single tree at [x = 6.192]; with two
    frames (steps 0.01 s and 0.01 s) they leave it at [x = 7.038] and at
    [x = 8.75870784].  No step reaches the cap of 0.033 s. *)
Lemma subdivision_changes_position :
  (Rmin 0.033 ((20 - 0) / 1000) = 0.02
   /\ Rmin 0.033 ((10 - 0) / 1000) = 0.01
   /\ Rmin 0.033 ((20 - 10) / 1000) = 0.01)
  /\ bannerXs (fst (Banner.frames Banner.CFG [20] pulledBanner
                      (constRng (1 / 2)))) = [[5.676]]
  /\ bannerXs (fst (Banner.frames Banner.CFG [10; 20] pulledBanner
                      (constRng (1 / 2)))) = [[7.038]]
  /\ treeXs (TreeCanvas.frames TreeCanvas.CFG 800 200 [20] pulledTree)
     = [6.192]
  /\ treeXs (TreeCanvas.frames TreeCanvas.CFG 800 200 [10; 20] pulledTree)
     = [8.75870784].
Proof.
  assert (Hoff : active (onLeave : Mouse R) = false) by reflexivity.
  split; [repeat split; r_minmax; lra|].
  unfold pulledBanner, pulledTree, bannerXs, treeXs.
  split; [|split; [|split]].
  - rewrite banner_frame_single.
    rewrite banner_stepNode_inactive by exact Hoff.
    cbn. unfold Banner.clamp. js_real. r_minmax. do 2 f_equal. lra.
  - rewrite banner_frame_single.
    rewrite banner_stepNode_inactive by exact Hoff.
    cbn [fst snd]. rewrite banner_frame_single.
    rewrite banner_stepNode_inactive by exact Hoff.
    cbn. unfold Banner.clamp. js_real. r_minmax. do 2 f_equal. lra.
  - rewrite treeCanvas_frame_single.
    rewrite treeCanvas_stepNode_far
      by (apply dist_ge; cbn; js_real; r_minmax; lra).
    cbn. js_real. r_minmax. f_equal. lra.
  - rewrite treeCanvas_frame_single.
    rewrite treeCanvas_stepNode_far
      by (apply dist_ge; cbn; js_real; r_minmax; lra).
    rewrite treeCanvas_frame_single.
    rewrite treeCanvas_stepNode_far
      by (apply dist_ge; cbn; js_real; r_minmax; lra).
    cbn. js_real. r_minmax. f_equal. lra.
Qed.

(** C1 (amended).  Only the displacement of a tick is scaled by the time
    step.  In both programs the velocity that a tick leaves (spring,
    repulsion, damping and, in the banner, the cap) is the same for every
    [dt], and the node moves by that velocity times [dt * 60].  The final
    position after a given time can therefore depend on the number of
    frames, as it does above.  Nodes at rest, the pointer inactive (banner)
    or out of reach (single tree), stay where they are under every
    sequence of frames. *)
Theorem integration_scaled_by_dt
  (cfgA : Banner.Config) (cfgB : TreeCanvas.Config) :
  0 <= Banner.maxSpeed cfgA ->
  (forall (m : Mouse R) dt n g,
      let n' := fst (Banner.stepNode cfgA m dt n g) in
      x n' = x n + vx n' * (dt * 60) /\ y n' = y n + vy n' * (dt * 60))
  /\ (forall (m : Mouse R) dt1 dt2 n g,
      vx (fst (Banner.stepNode cfgA m dt1 n g))
      = vx (fst (Banner.stepNode cfgA m dt2 n g))
      /\ vy (fst (Banner.stepNode cfgA m dt1 n g))
         = vy (fst (Banner.stepNode cfgA m dt2 n g)))
  /\ (forall (m : Mouse R) trees ts t0 g,
      active m = false ->
      Forall (fun t => Forall atRest (Banner.nodes t)) trees ->
      Banner.frames cfgA ts (Banner.MkState trees m t0) g
      = (Banner.MkState trees m (last ts t0), g))
  /\ (forall (m : Mouse R) dt n,
      let n' := TreeCanvas.stepNode cfgB m dt n in
      x n' = x n + vx n' * (dt * 60) /\ y n' = y n + vy n' * (dt * 60))
  /\ (forall (m : Mouse R) dt1 dt2 n,
      vx (TreeCanvas.stepNode cfgB m dt1 n) = vx (TreeCanvas.stepNode cfgB m dt2 n)
      /\ vy (TreeCanvas.stepNode cfgB m dt1 n)
         = vy (TreeCanvas.stepNode cfgB m dt2 n))
  /\ (forall (W H0 : R) (m : Mouse R) nodes ts t0,
      Forall (fun n => atRest n /\ TreeCanvas.repelRadius cfgB <= dist n m)
             nodes ->
      TreeCanvas.frames cfgB W H0 ts (TreeCanvas.MkState nodes m t0)
      = TreeCanvas.MkState nodes m (last ts t0)).
Proof.
  intros HM. split; [|split; [|split; [|split; [|split]]]].
  - intros m dt n g.
    destruct (banner_stepNode_fields cfgA m dt n g) as (_ & _ & Hx & Hy).
    split; assumption.
  - intros m dt1 dt2 n g.
    destruct (banner_velocity_dt_free cfgA m dt1 dt2 n g) as (Hx & Hy & _).
    split; assumption.
  - intros m trees ts t0 g Ha Hrest. now apply banner_frames_rest.
  - intros m dt n.
    destruct (treeCanvas_stepNode_fields cfgB m dt n) as (_ & _ & Hx & Hy).
    split; assumption.
  - intros m dt1 dt2 n. apply treeCanvas_velocity_dt_free.
  - intros W H0 m nodes ts t0 Hrest. now apply treeCanvas_frames_rest.
Qed.

Lemma integration_scaled_by_dt_witness :
  0 <= Banner.maxSpeed (Banner.CFG (A := R))
  /\ Banner.frames Banner.CFG [10; 20]
       (Banner.MkState [Banner.MkTree 100 100 1 [restNode]] onLeave 0)
       (constRng (1 / 2))
     = Banner.frames Banner.CFG [20]
         (Banner.MkState [Banner.MkTree 100 100 1 [restNode]] onLeave 0)
         (constRng (1 / 2)).
Proof.
  assert (HM : 0 <= Banner.maxSpeed (Banner.CFG (A := R)))
    by (simpl; js_real; lra).
  split; [exact HM|].
  pose proof (integration_scaled_by_dt Banner.CFG TreeCanvas.CFG HM)
    as (_ & _ & Hrest & _).
  assert (Hr : Forall (fun t => Forall atRest (Banner.nodes t))
                 [Banner.MkTree (100 : R) 100 1 [restNode]]).
  { repeat constructor; simpl; js_real; lra. }
  rewrite !Hrest by (reflexivity || exact Hr). reflexivity.
Defined.

(* ================================================================== *)
(** * The same runs in binary64 *)

(** The examples above, computed with the doubles of the engine. *)

Example float_subdivision :
  map (map (fun v => between (lit 5.67) v (lit 5.68)))
      (bannerXs (fst (Banner.frames Banner.CFG [lit 20] pulledBanner
                        (constRng (lit 0.5 : PrimFloat.float)))))
  = [[true]]
  /\ map (map (fun v => between (lit 7.03) v (lit 7.04)))
       (bannerXs (fst (Banner.frames Banner.CFG [lit 10; lit 20] pulledBanner
                         (constRng (lit 0.5 : PrimFloat.float)))))
     = [[true]]
  /\ map (fun v => between (lit 6.19) v (lit 6.20))
       (treeXs (TreeCanvas.frames TreeCanvas.CFG (lit 800) (lit 200)
                  [lit 20 : PrimFloat.float] pulledTree))
     = [true]
  /\ map (fun v => between (lit 8.75) v (lit 8.76))
       (treeXs (TreeCanvas.frames TreeCanvas.CFG (lit 800) (lit 200)
                  [lit 10 : PrimFloat.float; lit 20] pulledTree))
     = [true].
Proof. vm_compute. repeat split. Qed.

Example float_inactive_pointer_repels :
  active (onLeave : Mouse PrimFloat.float) = false
  /\ map (fun n => between (lit 4.25) (vx n) (lit 4.26))
       (TreeCanvas.step TreeCanvas.CFG onLeave (lit (1 # 60))
          [sentinelNode : Node PrimFloat.float])
     = [true].
Proof. vm_compute. split; reflexivity. Qed.

Example float_linear_force :
  between (lit 0.27) (TreeCanvas.repelForce TreeCanvas.CFG (lit 55))
          (lit 0.28 : PrimFloat.float) = true
  /\ between (lit 0.287) (Banner.repelForce Banner.CFG (lit 47.5))
             (lit 0.288 : PrimFloat.float) = true.
Proof. vm_compute. split; reflexivity. Qed.

Example float_speed_unclamped :
  between (lit 51.5)
          (vx (TreeCanvas.stepNode TreeCanvas.CFG onLeave (lit (1 # 60))
                 (farNode : Node PrimFloat.float)))
          (lit 51.7) = true.
Proof. vm_compute. reflexivity. Qed.

Example float_pointer_on_node :
  finiteFloats
    (fst (Banner.stepNode Banner.CFG (onMove (lit 0) (lit 100)) (lit 0.02)
            pulledNode (constRng (lit 0.5))))
  = true
  /\ finiteFloats
       (TreeCanvas.stepNode TreeCanvas.CFG (onMove (lit 0) (lit 100))
          (lit 0.02) pulledNode)
     = true.
Proof. vm_compute. split; reflexivity. Qed.

Example float_relaxation :
  let c := fst (Banner.chooseTreeCenter Banner.CFG (lit 800) (lit 200)
                  (relaxRng : Rng PrimFloat.float)) in
  neq (fst c) (lit 80) = true /\ neq (snd c) (lit 20) = true.
Proof. vm_compute. split; reflexivity. Qed.

Example float_coincident_link :
  match TreeCanvas.link TreeCanvas.CFG (pulledNode : Node PrimFloat.float)
          pulledNode with
  | [TreeCanvas.StrokeLine alpha _ _ _ _] => neq alpha (lit 0.22)
  | _ => false
  end = true
  /\ TreeCanvas.link TreeCanvas.CFG (pulledNode : Node PrimFloat.float)
       (MkNode (lit 0) (lit 0) (lit 34) (lit 100) (lit 0) (lit 0)) = [].
Proof. vm_compute. split; reflexivity. Qed.

(* ================================================================== *)
(** * Template placement *)

Lemma makeTree_spec (cfg : Banner.Config) (W H0 : R) (g : Rng R) :
  let t := fst (Banner.makeTree cfg W H0 g) in
  map anchor (Banner.nodes t)
  = map (fun p => (Banner.cx t + fst p * Banner.scale t,
                   Banner.cy t + snd p * Banner.scale t))
        (firstn (Banner.nodesPerTree cfg) Banner.TREE_TEMPLATE)
  /\ Forall atRest (Banner.nodes t)
  /\ (Banner.cx t, Banner.cy t) = fst (Banner.chooseTreeCenter cfg W H0 g).
Proof.
  unfold Banner.makeTree, bind, Banner.rand, bind, random, ret.
  destruct (Banner.chooseTreeCenter cfg W H0 g) as [[c1 c2] g1].
  cbn [fst snd Banner.nodes Banner.cx Banner.cy Banner.scale].
  split; [|split; [|reflexivity]].
  - rewrite map_map. apply map_ext. intros [tx ty]. reflexivity.
  - apply Forall_forall. intros n Hn. apply in_map_iff in Hn.
    destruct Hn as ([tx ty] & <- & _).
    unfold atRest. simpl. js_real. lra.
Qed.

(** The forest of the banner: [treeCount] trees; the nodes of each are at
    rest, one per offset of the template (the first [nodesPerTree] of the
    ten), anchored at the centre plus the scale times the offset. *)
Theorem initForest_spec (cfg : Banner.Config) (W H0 : R) (g : Rng R) :
  let trees := fst (Banner.initForest cfg W H0 g) in
  length trees = Banner.treeCount cfg
  /\ Forall (fun t =>
       map anchor (Banner.nodes t)
       = map (fun p => (Banner.cx t + fst p * Banner.scale t,
                        Banner.cy t + snd p * Banner.scale t))
             (firstn (Banner.nodesPerTree cfg) Banner.TREE_TEMPLATE)
       /\ Forall atRest (Banner.nodes t)) trees.
Proof.
  unfold Banner.initForest. generalize (Banner.treeCount cfg) as count.
  intros count. revert g.
  induction count as [|count IH]; intros g; cbn [Banner.growForest].
  - cbn. split; [reflexivity|constructor].
  - unfold bind.
    pose proof (makeTree_spec cfg W H0 g) as (Ha & Hr & _). cbv zeta in *.
    destruct (Banner.makeTree cfg W H0 g) as [t g1]. cbn [fst] in *.
    specialize (IH g1). cbv zeta in IH. destruct IH as [Hlen Hall].
    destruct (Banner.growForest cfg W H0 count g1) as [ts g2].
    cbn [fst ret length] in *. split; [now rewrite Hlen|].
    constructor; [split; assumption|exact Hall].
Qed.

(* ================================================================== *)
(** * A NaN in a node *)

Unset Implicit Arguments.

(** The statements of this section are about the doubles themselves. *)
Section NotANumber.
Import FloatAxioms SpecFloat FloatOps PrimFloat.

Lemma add_nan_l (b : float) : (nan + b)%float = nan.
Proof.
  apply Prim2SF_inj. rewrite add_spec. change (Prim2SF nan) with S754_nan.
  destruct (Prim2SF b); reflexivity.
Qed.

Lemma add_nan_r (a : float) : (a + nan)%float = nan.
Proof.
  apply Prim2SF_inj. rewrite add_spec. change (Prim2SF nan) with S754_nan.
  destruct (Prim2SF a); reflexivity.
Qed.

Lemma sub_nan_l (b : float) : (nan - b)%float = nan.
Proof.
  apply Prim2SF_inj. rewrite sub_spec. change (Prim2SF nan) with S754_nan.
  destruct (Prim2SF b); reflexivity.
Qed.

Lemma sub_nan_r (a : float) : (a - nan)%float = nan.
Proof.
  apply Prim2SF_inj. rewrite sub_spec. change (Prim2SF nan) with S754_nan.
  destruct (Prim2SF a); reflexivity.
Qed.

Lemma mul_nan_l (b : float) : (nan * b)%float = nan.
Proof.
  apply Prim2SF_inj. rewrite mul_spec. change (Prim2SF nan) with S754_nan.
  destruct (Prim2SF b); reflexivity.
Qed.

Lemma mul_nan_r (a : float) : (a * nan)%float = nan.
Proof.
  apply Prim2SF_inj. rewrite mul_spec. change (Prim2SF nan) with S754_nan.
  destruct (Prim2SF a); reflexivity.
Qed.

Lemma fmin_nan_r (a : float) : fmin a nan = nan.
Proof. unfold fmin. change (is_nan nan) with true. now rewrite orb_true_r. Qed.

Lemma fmax_nan_r (a : float) : fmax a nan = nan.
Proof. unfold fmax. change (is_nan nan) with true. now rewrite orb_true_r. Qed.

Ltac nan_arith :=
  cbn [nadd nsub nmul ndiv nneg mmax mmin FNum];
  repeat (rewrite ?add_nan_l, ?add_nan_r, ?sub_nan_l, ?sub_nan_r,
                  ?mul_nan_l, ?mul_nan_r, ?fmax_nan_r, ?fmin_nan_r).

(** The velocity after the spring, on an axis that holds a NaN. *)
Lemma spring_poisoned (a p v s : float) :
  is_nan a || is_nan p || is_nan v = true -> (v + (a - p) * s)%float = nan.
Proof.
  intros Hp. apply orb_true_iff in Hp. destruct Hp as [Hp|Hp];
    [apply orb_true_iff in Hp; destruct Hp as [Hp|Hp]|];
    apply is_nan_eq in Hp; subst.
  - now rewrite sub_nan_l, mul_nan_l, add_nan_r.
  - now rewrite sub_nan_r, mul_nan_l, add_nan_r.
  - now rewrite add_nan_l.
Qed.

Lemma banner_repel_nan_x cfg (m : Mouse float) n vy0 g :
  fst (fst (Banner.repel cfg m n (nan, vy0) g)) = nan.
Proof.
  unfold Banner.repel. destruct (active m); [|reflexivity].
  match goal with |- context [if ?c then _ else _] => destruct c end;
    [|reflexivity].
  unfold bind, random, ret. cbn [fst snd]. nan_arith. reflexivity.
Qed.

Lemma banner_repel_nan_y cfg (m : Mouse float) n vx0 g :
  snd (fst (Banner.repel cfg m n (vx0, nan) g)) = nan.
Proof.
  unfold Banner.repel. destruct (active m); [|reflexivity].
  match goal with |- context [if ?c then _ else _] => destruct c end;
    [|reflexivity].
  unfold bind, random, ret. cbn [fst snd]. nan_arith. reflexivity.
Qed.

Lemma banner_nan_x cfg (m : Mouse float) dt n g :
  poisonedX n = true ->
  let n' := fst (Banner.stepNode cfg m dt n g) in
  x n' = nan /\ vx n' = nan.
Proof.
  intros Hp. unfold Banner.stepNode, bind. cbn [nadd nsub nmul FNum].
  rewrite (spring_poisoned _ _ _ _ Hp).
  pose proof (banner_repel_nan_x cfg m n
                (vy n + (ay n - y n) * Banner.spring cfg)%float g) as Hr.
  destruct (Banner.repel cfg m n _ g) as [[vx1 vy1] g1]. cbn [fst snd] in *.
  subst vx1. unfold Banner.clamp, ret. cbn [fst x vx]. nan_arith. auto.
Qed.

Lemma banner_nan_y cfg (m : Mouse float) dt n g :
  poisonedY n = true ->
  let n' := fst (Banner.stepNode cfg m dt n g) in
  y n' = nan /\ vy n' = nan.
Proof.
  intros Hp. unfold Banner.stepNode, bind. cbn [nadd nsub nmul FNum].
  rewrite (spring_poisoned _ _ _ _ Hp).
  pose proof (banner_repel_nan_y cfg m n
                (vx n + (ax n - x n) * Banner.spring cfg)%float g) as Hr.
  destruct (Banner.repel cfg m n _ g) as [[vx1 vy1] g1]. cbn [fst snd] in *.
  subst vy1. unfold Banner.clamp, ret. cbn [fst y vy]. nan_arith. auto.
Qed.

Lemma treeCanvas_repel_nan_x cfg (m : Mouse float) n vy0 :
  fst (TreeCanvas.repel cfg m n (nan, vy0)) = nan.
Proof.
  unfold TreeCanvas.repel.
  match goal with |- context [if ?c then _ else _] => destruct c end;
    [|reflexivity].
  cbn [fst]. nan_arith. reflexivity.
Qed.

Lemma treeCanvas_repel_nan_y cfg (m : Mouse float) n vx0 :
  snd (TreeCanvas.repel cfg m n (vx0, nan)) = nan.
Proof.
  unfold TreeCanvas.repel.
  match goal with |- context [if ?c then _ else _] => destruct c end;
    [|reflexivity].
  cbn [snd]. nan_arith. reflexivity.
Qed.

Lemma treeCanvas_nan_x cfg (m : Mouse float) dt n :
  poisonedX n = true ->
  let n' := TreeCanvas.stepNode cfg m dt n in
  x n' = nan /\ vx n' = nan.
Proof.
  intros Hp. unfold TreeCanvas.stepNode. cbn [nadd nsub nmul FNum].
  rewrite (spring_poisoned _ _ _ _ Hp).
  pose proof (treeCanvas_repel_nan_x cfg m n
                (vy n + (ay n - y n) * TreeCanvas.returnStrength cfg)%float) as Hr.
  destruct (TreeCanvas.repel cfg m n _) as [vx1 vy1]. cbn [fst snd] in *.
  subst vx1. cbn [x vx]. nan_arith. auto.
Qed.

Lemma treeCanvas_nan_y cfg (m : Mouse float) dt n :
  poisonedY n = true ->
  let n' := TreeCanvas.stepNode cfg m dt n in
  y n' = nan /\ vy n' = nan.
Proof.
  intros Hp. unfold TreeCanvas.stepNode. cbn [nadd nsub nmul FNum].
  rewrite (spring_poisoned _ _ _ _ Hp).
  pose proof (treeCanvas_repel_nan_y cfg m n
                (vx n + (ax n - x n) * TreeCanvas.returnStrength cfg)%float) as Hr.
  destruct (TreeCanvas.repel cfg m n _) as [vx1 vy1]. cbn [fst snd] in *.
  subst vy1. cbn [y vy]. nan_arith. auto.
Qed.

(** What holds of every element and its rewriting holds of the lists. *)
Lemma forEach_Forall2 {A X} (P : X -> X -> Prop) (body : X -> Rand A X) :
  (forall v g, P v (fst (body v g))) ->
  forall l g, Forall2 P l (fst (forEach body l g)).
Proof.
  intros Hb l. induction l as [|v l IH]; intros g; cbn [forEach];
    [constructor|].
  unfold bind. specialize (Hb v g). destruct (body v g) as [v' g1].
  specialize (IH g1). destruct (forEach body l g1) as [l' g2].
  cbn [fst ret] in *. now constructor.
Qed.

Lemma banner_step_Forall2 {A} `{JsNum A} (P : Node A -> Node A -> Prop)
  cfg (m : Mouse A) dt :
  (forall n g, P n (fst (Banner.stepNode cfg m dt n g))) ->
  forall trees g,
    Forall2 (fun t t' => Forall2 P (Banner.nodes t) (Banner.nodes t'))
            trees (fst (Banner.step cfg m dt trees g)).
Proof.
  intros Hn trees g. unfold Banner.step. apply forEach_Forall2.
  intros t g0. unfold Banner.stepTree, bind.
  pose proof (forEach_Forall2 P (Banner.stepNode cfg m dt) Hn
                (Banner.nodes t) g0) as Hf.
  destruct (forEach (Banner.stepNode cfg m dt) (Banner.nodes t) g0).
  exact Hf.
Qed.

Lemma Forall2_trans_rel {X} (P : X -> X -> Prop) :
  (forall a b c, P a b -> P b c -> P a c) ->
  forall l1 l2 l3, Forall2 P l1 l2 -> Forall2 P l2 l3 -> Forall2 P l1 l3.
Proof.
  intros Ht l1 l2 l3 H12. revert l3.
  induction H12; intros l3 H23; inversion H23; subst; constructor; eauto.
Qed.

Lemma Forall2_refl_rel {X} (P : X -> X -> Prop) :
  (forall a, P a a) -> forall l, Forall2 P l l.
Proof. intros Hr l. induction l; constructor; auto. Qed.

Lemma staysPoisoned_trans a b c :
  staysPoisoned a b -> staysPoisoned b c -> staysPoisoned a c.
Proof. unfold staysPoisoned. tauto. Qed.

Lemma staysPoisoned_refl a : staysPoisoned a a.
Proof. unfold staysPoisoned. tauto. Qed.

Lemma poisonedX_pos (n : Node float) : x n = nan -> poisonedX n = true.
Proof.
  intros Hx. unfold poisonedX. rewrite Hx. change (is_nan nan) with true.
  now rewrite orb_true_r.
Qed.

Lemma poisonedY_pos (n : Node float) : y n = nan -> poisonedY n = true.
Proof.
  intros Hy. unfold poisonedY. rewrite Hy. change (is_nan nan) with true.
  now rewrite orb_true_r.
Qed.

Lemma banner_tick_staysPoisoned cfg (m : Mouse float) dt n g :
  staysPoisoned n (fst (Banner.stepNode cfg m dt n g)).
Proof.
  split; intros Hp.
  - apply poisonedX_pos. now apply banner_nan_x.
  - apply poisonedY_pos. now apply banner_nan_y.
Qed.

Lemma treeCanvas_tick_staysPoisoned cfg (m : Mouse float) dt n :
  staysPoisoned n (TreeCanvas.stepNode cfg m dt n).
Proof.
  split; intros Hp.
  - apply poisonedX_pos. now apply treeCanvas_nan_x.
  - apply poisonedY_pos. now apply treeCanvas_nan_y.
Qed.

Lemma treeCanvas_frames_staysPoisoned cfg (W H0 : float) ts :
  forall s,
    Forall2 staysPoisoned (TreeCanvas.nodes s)
            (TreeCanvas.nodes (TreeCanvas.frames cfg W H0 ts s)).
Proof.
  induction ts as [|t ts IH]; intros s; cbn [TreeCanvas.frames].
  - apply Forall2_refl_rel. apply staysPoisoned_refl.
  - eapply Forall2_trans_rel; [apply staysPoisoned_trans| |apply IH].
    unfold TreeCanvas.loop, TreeCanvas.step. cbn [fst TreeCanvas.nodes].
    induction (TreeCanvas.nodes s) as [|n l IHl]; cbn [map]; constructor; auto.
    apply treeCanvas_tick_staysPoisoned.
Qed.

Lemma nested_trans (a b c : list (Node float)) :
  Forall2 staysPoisoned a b -> Forall2 staysPoisoned b c ->
  Forall2 staysPoisoned a c.
Proof. apply Forall2_trans_rel. apply staysPoisoned_trans. Qed.

Lemma banner_frames_staysPoisoned cfg ts :
  forall (s : Banner.State) g,
    Forall2 (fun t t' => Forall2 staysPoisoned (Banner.nodes t) (Banner.nodes t'))
            (Banner.trees s)
            (Banner.trees (fst (Banner.frames cfg ts s g))).
Proof.
  induction ts as [|t ts IH]; intros s g; cbn [Banner.frames].
  - cbn. apply Forall2_refl_rel. intros a. apply Forall2_refl_rel.
    apply staysPoisoned_refl.
  - unfold bind at 1.
    pose proof (banner_step_Forall2 staysPoisoned cfg (Banner.mouse s)
                  (mmin (lit 0.033) (ndiv (nsub t (Banner.lastT s)) (lit 1000)))
                  (fun n g => banner_tick_staysPoisoned cfg _ _ n g)
                  (Banner.trees s) g) as Hs.
    unfold Banner.loop, bind.
    destruct (Banner.step cfg (Banner.mouse s) _ (Banner.trees s) g) as [ts' g1].
    cbn [fst ret] in *.
    eapply Forall2_trans_rel; [|exact Hs|].
    + intros a b c. apply nested_trans.
    + apply (IH (Banner.MkState ts' (Banner.mouse s) t) g1).
Qed.

(** In binary64, whatever the configuration, the pointer, the time
    step and the draws: a node that holds a NaN in the anchor, the position
    or the velocity of an axis has NaN for the position and for the velocity
    of that axis after one tick, in both programs.  Over any sequence of
    frames an axis that holds a NaN therefore keeps one: nothing in [step]
    repairs the node. *)
Theorem nan_is_permanent :
  (forall cfg (m : Mouse float) dt n g,
      let n' := fst (Banner.stepNode cfg m dt n g) in
      (poisonedX n = true -> is_nan (x n') = true /\ is_nan (vx n') = true)
      /\ (poisonedY n = true -> is_nan (y n') = true /\ is_nan (vy n') = true))
  /\ (forall cfg (m : Mouse float) dt n,
      let n' := TreeCanvas.stepNode cfg m dt n in
      (poisonedX n = true -> is_nan (x n') = true /\ is_nan (vx n') = true)
      /\ (poisonedY n = true -> is_nan (y n') = true /\ is_nan (vy n') = true))
  /\ (forall cfg ts (s : Banner.State) g,
      Forall2 (fun t t' => Forall2 staysPoisoned (Banner.nodes t) (Banner.nodes t'))
              (Banner.trees s) (Banner.trees (fst (Banner.frames cfg ts s g))))
  /\ (forall cfg (W H0 : float) ts s,
      Forall2 staysPoisoned (TreeCanvas.nodes s)
              (TreeCanvas.nodes (TreeCanvas.frames cfg W H0 ts s))).
Proof.
  split; [|split; [|split]].
  - intros cfg m dt n g. cbv zeta. split; intros Hp.
    + destruct (banner_nan_x cfg m dt n g Hp) as [-> ->]. split; reflexivity.
    + destruct (banner_nan_y cfg m dt n g Hp) as [-> ->]. split; reflexivity.
  - intros cfg m dt n. cbv zeta. split; intros Hp.
    + destruct (treeCanvas_nan_x cfg m dt n Hp) as [-> ->]. split; reflexivity.
    + destruct (treeCanvas_nan_y cfg m dt n Hp) as [-> ->]. split; reflexivity.
  - intros. apply banner_frames_staysPoisoned.
  - intros. apply treeCanvas_frames_staysPoisoned.
Qed.

Lemma nan_is_permanent_witness :
  let n := MkNode (lit 0) (lit 100) nan (lit 100) (lit 0) (lit 0) in
  let n' := TreeCanvas.stepNode TreeCanvas.CFG (onMove (lit 3) (lit 100))
              (lit 0.016) n in
  is_nan (x n') = true /\ is_nan (vx n') = true.
Proof.
  apply (proj1 (proj1 (proj2 nan_is_permanent) TreeCanvas.CFG
                  (onMove (lit 3) (lit 100)) (lit 0.016)
                  (MkNode (lit 0) (lit 100) nan (lit 100) (lit 0) (lit 0)))).
  vm_compute. reflexivity.
Defined.

End NotANumber.

(* ================================================================== *)
(** * What a frame of the single tree draws *)









(* ================================================================== *)
(** * The draws of a banner tick *)

Lemma forEach_used {A X} (body : X -> Rand A X) (c : X -> nat) :
  (forall v g, draws (snd (body v g)) = draws g
               /\ used (snd (body v g)) = (used g + c v)%nat) ->
  forall l g,
    draws (snd (forEach body l g)) = draws g
    /\ used (snd (forEach body l g)) = (used g + list_sum (map c l))%nat.
Proof.
  intros Hb l. induction l as [|v l IH]; intros g; cbn [forEach map].
  - cbn. split; [reflexivity|lia].
  - unfold bind. destruct (Hb v g) as [Hd Hu].
    destruct (body v g) as [v' g1]. cbn [snd] in Hd, Hu.
    destruct (IH g1) as [Hd' Hu'].
    destruct (forEach body l g1) as [l' g2]. unfold ret. cbn [snd] in *.
    change (list_sum (c v :: map c l)) with (c v + list_sum (map c l))%nat.
    split; [congruence|lia].
Qed.

Lemma banner_stepNode_used {A} `{JsNum A} cfg (m : Mouse A) dt n g :
  draws (snd (Banner.stepNode cfg m dt n g)) = draws g
  /\ used (snd (Banner.stepNode cfg m dt n g))
     = (used g + (if reached cfg m n then 2 else 0))%nat.
Proof.
  unfold Banner.stepNode, Banner.repel, bind, reached. cbv zeta.
  destruct (active m); cbn [andb]; [|cbn; split; [reflexivity|lia]].
  match goal with |- context [if nlt ?a ?b then _ else _] =>
    destruct (nlt a b) end; cbn; split; try reflexivity; lia.
Qed.

Lemma filter_count {X} (p : X -> bool) (l : list X) :
  list_sum (map (fun v => if p v then 2 else 0)%nat l)
  = (2 * length (filter p l))%nat.
Proof.
  induction l as [|v l IH]; cbn [map filter]; [reflexivity|].
  change (list_sum ((if p v then 2 else 0)%nat
                    :: map (fun v => if p v then 2 else 0)%nat l))
    with ((if p v then 2 else 0)
          + list_sum (map (fun v => if p v then 2 else 0)%nat l))%nat.
  destruct (p v); cbn [length]; lia.
Qed.

Lemma reached_flat {A} `{JsNum A} cfg (m : Mouse A) (ts : list Banner.Tree) :
  list_sum (map (fun t => 2 * length (filter (reached cfg m) (Banner.nodes t)))%nat
                ts)
  = (2 * length (filter (reached cfg m) (allNodes ts)))%nat.
Proof.
  unfold allNodes.
  induction ts as [|t ts IH]; cbn [map flat_map]; [reflexivity|].
  change (list_sum (2 * length (filter (reached cfg m) (Banner.nodes t))
                    :: map (fun t => 2 * length (filter (reached cfg m)
                                                   (Banner.nodes t))) ts))%nat
    with (2 * length (filter (reached cfg m) (Banner.nodes t))
          + list_sum (map (fun t => 2 * length (filter (reached cfg m)
                                                  (Banner.nodes t))) ts))%nat.
  rewrite IH, filter_app, length_app. lia.
Qed.

(** A tick of the banner, in every number model, calls [Math.random]
    twice for every node that the pointer reaches, and not otherwise: the
    number of draws of [step] is twice the number of nodes for which the
    pointer is active and the distance computed is under [hoverRadius].  A
    forest out of reach, or an inactive pointer, leaves the source of draws
    where it was. *)
Theorem banner_step_draws {A} `{JsNum A} cfg (m : Mouse A) dt trees g :
  let r := Banner.step cfg m dt trees g in
  draws (snd r) = draws g
  /\ used (snd r)
     = (used g + 2 * length (filter (reached cfg m) (allNodes trees)))%nat
  /\ (filter (reached cfg m) (allNodes trees) = [] -> snd r = g)
  /\ (active m = false -> snd r = g).
Proof.
  cbv zeta. unfold Banner.step.
  assert (Ht : forall t g0,
             draws (snd (Banner.stepTree cfg m dt t g0)) = draws g0
             /\ used (snd (Banner.stepTree cfg m dt t g0))
                = (used g0
                   + 2 * length (filter (reached cfg m) (Banner.nodes t)))%nat).
  { intros t g0. unfold Banner.stepTree, bind.
    pose proof (forEach_used (Banner.stepNode cfg m dt)
                  (fun n => if reached cfg m n then 2 else 0)%nat
                  (banner_stepNode_used cfg m dt) (Banner.nodes t) g0) as Hf.
    rewrite filter_count in Hf.
    destruct (forEach (Banner.stepNode cfg m dt) (Banner.nodes t) g0).
    exact Hf. }
  pose proof (forEach_used (Banner.stepTree cfg m dt)
                (fun t => 2 * length (filter (reached cfg m) (Banner.nodes t)))%nat
                Ht trees g) as [Hd Hu].
  rewrite reached_flat in Hu.
  assert (Hnone : filter (reached cfg m) (allNodes trees) = [] ->
                  snd (forEach (Banner.stepTree cfg m dt) trees g) = g).
  { intros Hz. rewrite Hz in Hu. cbn [length] in Hu.
    destruct (snd (forEach (Banner.stepTree cfg m dt) trees g)) as [d u].
    destruct g as [d0 u0]. cbn [draws used] in *. f_equal; [exact Hd|lia]. }
  split; [exact Hd|]. split; [exact Hu|]. split; [exact Hnone|].
  intros Ha. apply Hnone. clear Hu Hnone.
  induction (allNodes trees) as [|n l IHl]; cbn [filter]; [reflexivity|].
  unfold reached at 1. rewrite Ha. cbn [andb]. exact IHl.
Qed.

Lemma banner_step_draws_witness :
  snd (Banner.step Banner.CFG (onLeave : Mouse R) 0
         [Banner.MkTree 0 0 1 [pulledNode]] (constRng (1 / 2)))
  = constRng (1 / 2).
Proof.
  apply (proj2 (proj2 (proj2
           (banner_step_draws Banner.CFG (onLeave : Mouse R) 0
              [Banner.MkTree 0 0 1 [pulledNode]] (constRng (1 / 2)))))).
  reflexivity.
Defined.

(* ================================================================== *)
(** * Box-Muller *)

Local Open Scope R_scope.

Lemma drawNonZero_first (fuel : nat) :
  forall g : Rng R,
    match TreeCanvas.drawNonZero fuel g with
    | (Some u, g') =>
        exists k, (k < fuel)%nat
          /\ (forall j, (j < k)%nat -> draws g (used g + j) = 0)
          /\ u = draws g (used g + k) /\ u <> 0
          /\ draws g' = draws g /\ used g' = (used g + k + 1)%nat
    | (None, g') =>
        forall j, (j < fuel)%nat -> draws g (used g + j) = 0
    end.
Proof.
  induction fuel as [|fuel IH]; intros g; cbn [TreeCanvas.drawNonZero].
  - cbn. intros j Hj. lia.
  - unfold bind, random. cbn [neq RNum lit].
    destruct (Reqb (draws g (used g)) (Q2R 0)) eqn:Hz.
    + apply Reqb_true in Hz.
      replace (Q2R 0) with 0 in Hz by (cbv [Q2R Qnum Qden]; lra).
      specialize (IH (MkRng (draws g) (S (used g)))).
      destruct (TreeCanvas.drawNonZero fuel _) as [[u|] g'];
        cbn [draws used] in IH.
      * destruct IH as (k & Hk & Hzero & Hu & Hnz & Hd & Hus).
        exists (S k). split; [lia|]. split.
        { intros [|j] Hj.
          - now rewrite Nat.add_0_r.
          - replace (used g + S j)%nat with (S (used g) + j)%nat by lia.
            apply Hzero. lia. }
        replace (used g + S k)%nat with (S (used g) + k)%nat by lia.
        repeat split; auto; lia.
      * intros [|j] Hj.
        { now rewrite Nat.add_0_r. }
        replace (used g + S j)%nat with (S (used g) + j)%nat by lia.
        apply IH. lia.
    + apply Reqb_false in Hz.
      replace (Q2R 0) with 0 in Hz by (cbv [Q2R Qnum Qden]; lra).
      cbn [ret draws used]. exists 0%nat. split; [lia|].
      split; [intros j Hj; lia|].
      rewrite Nat.add_0_r. repeat split; auto; lia.
Qed.

Lemma ln_unit_neg (u : R) : 0 < u < 1 -> ln u < 0.
Proof.
  intros [H0 H1]. rewrite <- ln_1. now apply ln_increasing.
Qed.

(** [randn] on draws of [Math.random], which lie in [[0, 1)]: the two
    loops skip the draws that are zero; with [u] and [v] the first draw
    that is not zero of each loop, the logarithm is taken of a number
    strictly between 0 and 1, the square root of a positive number, and the
    value returned is [sqrt (-2 ln u) * cos (2 pi v)], of magnitude at most
    [sqrt (-2 ln u)].  When the value is cut off, [fuel] draws in a row were
    zero. *)
Theorem randn_box_muller (fuel : nat) (g : Rng R) :
  unitDraws g ->
  match TreeCanvas.randn fuel g with
  | (Some z, g') =>
      exists i j,
        let u := draws g (used g + i) in
        let v := draws g (used g + i + 1 + j) in
        (i < fuel)%nat /\ (j < fuel)%nat
        /\ (forall k, (k < i)%nat -> draws g (used g + k) = 0)
        /\ (forall k, (k < j)%nat -> draws g (used g + i + 1 + k) = 0)
        /\ 0 < u < 1 /\ 0 < v < 1
        /\ 0 < -2 * ln u
        /\ z = sqrt (-2 * ln u) * cos (2 * PI * v)
        /\ Rabs z <= sqrt (-2 * ln u)
        /\ draws g' = draws g /\ used g' = (used g + i + j + 2)%nat
  | (None, _) =>
      exists s, (used g <= s)%nat
        /\ forall k, (k < fuel)%nat -> draws g (s + k) = 0
  end.
Proof.
  intros Hg. unfold TreeCanvas.randn, bindO, bind. cbv beta.
  pose proof (drawNonZero_first fuel g) as H1.
  destruct (TreeCanvas.drawNonZero fuel g) as [[u|] g1].
  - destruct H1 as (i & Hi & Hzi & Hu & Hnu & Hd1 & Hu1).
    pose proof (drawNonZero_first fuel g1) as H2.
    destruct (TreeCanvas.drawNonZero fuel g1) as [[v|] g2].
    + destruct H2 as (j & Hj & Hzj & Hv & Hnv & Hd2 & Hu2).
      rewrite Hd1, Hu1 in *. cbn [ret].
      exists i, j. cbv zeta.
      assert (Hur : 0 < u < 1) by (pose proof (Hg (used g + i)%nat); subst u; lra).
      assert (Hvr : 0 < v < 1)
        by (pose proof (Hg (used g + i + 1 + j)%nat); subst v; lra).
      pose proof (ln_unit_neg u Hur) as Hln.
      rewrite <- Hu, <- Hv.
      split; [exact Hi|]. split; [exact Hj|]. split; [exact Hzi|].
      split; [exact Hzj|]. split; [exact Hur|]. split; [exact Hvr|].
      split; [lra|].
      assert (Hz : msqrt (lit (-2.0) * mlog u) * mcos (lit 2.0 * mpi * v)
                   = sqrt (-2 * ln u) * cos (2 * PI * v)).
      { cbn [msqrt mlog mcos mpi RMath RNum nmul lit]. f_equal; f_equal.
        - cbv [Q2R Qnum Qden]. lra.
        - cbv [Q2R Qnum Qden]. lra. }
      split; [exact Hz|]. split.
      * match goal with
        | |- Rabs ?z <= _ =>
            replace z with (sqrt (-2 * ln u) * cos (2 * PI * v))
              by (symmetry; exact Hz)
        end.
        rewrite Rabs_mult.
        pose proof (COS_bound (2 * PI * v)) as Hc.
        assert (Rabs (cos (2 * PI * v)) <= 1) by (apply Rabs_le; lra).
        pose proof (sqrt_pos (-2 * ln u)) as Hs.
        rewrite (Rabs_right (sqrt _)) by lra. nra.
      * split; [congruence|lia].
    + cbn [ret]. rewrite Hd1, Hu1 in H2.
      exists (used g + i + 1)%nat. split; [lia|exact H2].
  - cbn [ret]. exists (used g). split; [lia|exact H1].
Qed.

Lemma randn_box_muller_witness :
  exists z, fst (TreeCanvas.randn 1 (constRng (1 / 2))) = Some z
            /\ Rabs z <= sqrt (-2 * ln (1 / 2)).
Proof.
  pose proof (randn_box_muller 1 (constRng (1 / 2)) unitDraws_half) as H.
  destruct (TreeCanvas.randn 1 (constRng (1 / 2))) as [[z|] g'].
  - destruct H as (i & j & _ & _ & _ & _ & _ & _ & _ & _ & Hz & _).
    exists z. split; [reflexivity|exact Hz].
  - destruct H as (s & _ & H). specialize (H 0%nat ltac:(lia)).
    simpl in H. lra.
Defined.

(* ================================================================== *)
(** * The surface and what is placed on it *)

(** The side of the surface is a whole number of pixels, at least one; it
    is the side measured, rounded down, when that is one pixel or more. *)
Lemma surfaceSide_spec (side : R) :
  1 <= surfaceSide side
  /\ (exists z : Z, surfaceSide side = IZR z)
  /\ (side < 2 -> surfaceSide side = 1)
  /\ (1 <= side -> side - 1 < surfaceSide side <= side).
Proof.
  unfold surfaceSide. js_real. replace (1 * / 1) with 1 by lra.
  pose proof (Rfloor_bounds side) as [Hlo Hhi].
  split; [apply Rmax_l|]. split; [|split].
  - unfold Rmax. destruct (Rle_dec 1 (Rfloor side)).
    + exists (Int_part side). reflexivity.
    + exists 1%Z. reflexivity.
  - intros H2. apply Rmax_left.
    unfold Rfloor in *.
    assert (Hz : (Int_part side < 2)%Z) by (apply lt_IZR; lra).
    apply IZR_le. lia.
  - intros H1.
    assert (Hz : (1 <= Int_part side)%Z).
    { assert (H0 : (0 < Int_part side)%Z)
        by (apply lt_IZR; unfold Rfloor in *; lra).
      lia. }
    apply IZR_le in Hz. fold (Rfloor side) in Hz.
    rewrite Rmax_right by exact Hz. lra.
Qed.

(** [resize] of the single tree on draws of [Math.random]: the sides of
    the surface are whole numbers of pixels, at least one, the sides
    measured rounded down when those are a pixel or more; every node built
    is at its anchor, and every anchor lies between [0.2 H] and [0.88 H]
    down the surface.  The call returns as soon as the zero runs of the
    draws are shorter than the bound put on the loops of [randn]. *)
Theorem treeCanvas_resize_band cfg (width height : R) (fuel : nat) (g : Rng R) :
  unitDraws g ->
  let r := fst (TreeCanvas.resize cfg width height fuel g) in
  (zeroRunsBelow fuel g -> r <> None)
  /\ match r with
     | Some (W, H0, ns) =>
         W = surfaceSide width /\ H0 = surfaceSide height
         /\ 1 <= W /\ 1 <= H0
         /\ (exists w h : Z, W = IZR w /\ H0 = IZR h)
         /\ (1 <= width -> width - 1 < W <= width)
         /\ (1 <= height -> height - 1 < H0 <= height)
         /\ Forall (fun n => y n = ay n /\ 0.2 * H0 <= ay n <= 0.88 * H0) ns
     | None => True
     end.
Proof.
  intros Hg r. subst r.
  destruct (surfaceSide_spec width) as (HW & [w Hw] & _ & HWf).
  destruct (surfaceSide_spec height) as (HH & [h Hh] & _ & HHf).
  destruct (yields_resize_band cfg width height fuel g Hg) as [_ Hp].
  assert (Hz : yields fuel (fun _ : R * R * list (Node R) => True)
                 (TreeCanvas.resize cfg width height fuel)).
  { unfold TreeCanvas.resize.
    eapply yields_bindO; [apply yields_buildTree|].
    intros ns _. now apply yields_ret. }
  destruct (Hz g) as (_ & _ & Hsome).
  split; [exact Hsome|].
  destruct (fst (TreeCanvas.resize cfg width height fuel g)) as [[[W H0] ns]|];
    [|exact I].
  destruct Hp as (-> & -> & Hall).
  split; [reflexivity|]. split; [reflexivity|]. split; [exact HW|].
  split; [exact HH|]. split; [exists w, h; split; assumption|].
  split; [exact HWf|]. split; [exact HHf|].
  eapply Forall_impl; [|exact Hall]. cbv beta.
  intros n [(_ & Hy & _) Hb]. split; assumption.
Qed.

Lemma treeCanvas_resize_band_witness :
  fst (TreeCanvas.resize TreeCanvas.CFG 800 600 1 (constRng (1 / 2))) <> None.
Proof.
  apply (proj1 (treeCanvas_resize_band TreeCanvas.CFG 800 600 1
                  (constRng (1 / 2)) unitDraws_half)).
  intros i. exists 0%nat. split; [lia|]. simpl. lra.
Defined.

(** The centre of a tree is on the surface; [chooseTreeCenter] keeps the
    source of draws and makes between 2 and 82 of them. *)
Lemma chooseTreeCenter_draws {A} `{JsNum A} cfg (W H0 : A) g :
  draws (snd (Banner.chooseTreeCenter cfg W H0 g)) = draws g.
Proof.
  unfold Banner.chooseTreeCenter, bind.
  pose proof (chooseLoop_spec cfg W H0 40 0 g) as [Hd _].
  destruct (Banner.chooseLoop cfg W H0 40 0 g) as [[c|] g1]; cbn [fst snd] in *.
  - exact Hd.
  - unfold random, ret. cbn [snd draws]. exact Hd.
Qed.

Lemma chooseTreeCenter_point cfg (W H0 : R) g :
  unitDraws g -> 0 < W -> 0 < H0 ->
  let r := Banner.chooseTreeCenter cfg W H0 g in
  (0 <= fst (fst r) <= W /\ 0 <= snd (fst r) <= H0)
  /\ (used g + 2 <= used (snd r) <= used g + 82)%nat.
Proof.
  intros Hg HW HH r.
  pose proof (chooseTreeCenter_spec cfg W H0 g) as Hs. cbv zeta in Hs.
  fold r in Hs.
  assert (Hin : forall k, (0 <= fst (scaled W H0 (candidate g k)) < W)
                          /\ (0 <= snd (scaled W H0 (candidate g k)) < H0)).
  { intros k. apply scaled_inside; auto; unfold candidate; cbn [fst snd];
      apply Hg. }
  destruct Hs as [(k & Hk & Hu & Hc & _)|(Hu & Hc & _)]; rewrite Hc;
    (split; [specialize (Hin k) || specialize (Hin 40%nat); lra|lia]).
Qed.

Lemma rand_range (lo hi : R) g :
  unitDraws g -> lo <= hi ->
  lo <= fst (Banner.rand lo hi g) <= hi
  /\ snd (Banner.rand lo hi g) = MkRng (draws g) (S (used g)).
Proof.
  intros Hg Hle. unfold Banner.rand, bind, random, ret. cbn [fst snd].
  js_real. specialize (Hg (used g)). repeat split; try nra.
Qed.

Lemma makeTree_placed (W H0 : R) g :
  unitDraws g -> 0 < W -> 0 < H0 ->
  let r := Banner.makeTree Banner.CFG W H0 g in
  treePlaced W H0 (fst r)
  /\ draws (snd r) = draws g
  /\ (used g + 3 <= used (snd r) <= used g + 83)%nat.
Proof.
  intros Hg HW HH r. subst r.
  pose proof (chooseTreeCenter_point Banner.CFG W H0 g Hg HW HH) as [Hin Hu].
  pose proof (chooseTreeCenter_draws Banner.CFG W H0 g) as Hd.
  cbv zeta in *. unfold Banner.makeTree, bind.
  destruct (Banner.chooseTreeCenter Banner.CFG W H0 g) as [[c1 c2] g1].
  cbn [fst snd] in *.
  assert (Hg1 : unitDraws g1) by (unfold unitDraws; rewrite Hd; exact Hg).
  assert (Hs : Banner.minScale (Banner.CFG (A := R))
               <= Banner.maxScale Banner.CFG) by (simpl; js_real; lra).
  pose proof (rand_range (Banner.minScale Banner.CFG)
                (Banner.maxScale Banner.CFG) g1 Hg1 Hs) as (Hr & Hgr).
  destruct (Banner.rand (Banner.minScale Banner.CFG)
              (Banner.maxScale Banner.CFG) g1) as [sc g2].
  cbn [fst snd ret] in *. subst g2. cbn [draws used].
  split; [|split; [exact Hd|lia]].
  unfold treePlaced. cbn [Banner.cx Banner.cy Banner.scale Banner.nodes].
  split; [exact Hin|]. split; [exact Hr|].
  rewrite length_map. reflexivity.
Qed.

Lemma growForest_placed (W H0 : R) count :
  0 < W -> 0 < H0 ->
  forall g, unitDraws g ->
    let r := Banner.growForest Banner.CFG W H0 count g in
    length (fst r) = count
    /\ Forall (treePlaced W H0) (fst r)
    /\ draws (snd r) = draws g
    /\ (used g + 3 * count <= used (snd r) <= used g + 83 * count)%nat.
Proof.
  intros HW HH. induction count as [|count IH]; intros g Hg;
    cbn [Banner.growForest].
  - cbn. repeat split; auto; lia.
  - unfold bind.
    pose proof (makeTree_placed W H0 g Hg HW HH) as (Ht & Hd & Hu).
    cbv zeta in *.
    destruct (Banner.makeTree Banner.CFG W H0 g) as [t g1]. cbn [fst snd] in *.
    assert (Hg1 : unitDraws g1) by (unfold unitDraws; rewrite Hd; exact Hg).
    specialize (IH g1 Hg1). destruct IH as (Hlen & Hall & Hd' & Hu').
    destruct (Banner.growForest Banner.CFG W H0 count g1) as [ts g2].
    cbn [fst snd ret length] in *.
    split; [now rewrite Hlen|]. split; [now constructor|].
    split; [congruence|lia].
Qed.

(** [resize] of the configured banner on draws of [Math.random]: the
    sides of the surface are whole numbers of pixels, at least one; ten
    trees are planted, each with its centre on the surface, a scale from 26
    to 44 and the ten nodes of the template; the call makes between 3 and
    83 draws a tree: two or more for the centre, at most 82, and one for the
    scale. *)
Theorem banner_resize_placed (width height : R) (g : Rng R) :
  unitDraws g ->
  let r := Banner.resize Banner.CFG width height g in
  let W := fst (fst (fst r)) in
  let H0 := snd (fst (fst r)) in
  let trees := snd (fst r) in
  W = surfaceSide width /\ H0 = surfaceSide height
  /\ 1 <= W /\ 1 <= H0
  /\ (exists w h : Z, W = IZR w /\ H0 = IZR h)
  /\ length trees = 10%nat
  /\ Forall (treePlaced W H0) trees
  /\ Forall (fun t => 26 <= Banner.scale t <= 44
                      /\ length (Banner.nodes t) = 10%nat) trees
  /\ draws (snd r) = draws g
  /\ (used g + 30 <= used (snd r) <= used g + 830)%nat.
Proof.
  intros Hg r W H0 trees. subst r W H0 trees.
  destruct (surfaceSide_spec width) as (HW & [w Hw] & _).
  destruct (surfaceSide_spec height) as (HH & [h Hh] & _).
  unfold Banner.resize, bind, Banner.initForest.
  assert (HW0 : 0 < surfaceSide width) by lra.
  assert (HH0 : 0 < surfaceSide height) by lra.
  pose proof (growForest_placed (surfaceSide width) (surfaceSide height)
                (Banner.treeCount (Banner.CFG (A := R))) HW0 HH0 g Hg)
    as (Hlen & Hall & Hd & Hu).
  cbv zeta in *.
  destruct (Banner.growForest Banner.CFG (surfaceSide width)
              (surfaceSide height) (Banner.treeCount Banner.CFG) g)
    as [ts g1].
  cbn [fst snd ret] in *.
  change (Banner.treeCount (Banner.CFG (A := R))) with 10%nat in *.
  split; [reflexivity|]. split; [reflexivity|]. split; [exact HW|].
  split; [exact HH|]. split; [exists w, h; split; assumption|].
  split; [exact Hlen|]. split; [exact Hall|].
  split; [|split; [exact Hd|lia]].
  eapply Forall_impl; [|exact Hall]. cbv beta.
  intros t (_ & Hs & Hn). split; [|exact Hn].
  revert Hs. simpl. js_real. lra.
Qed.

Lemma banner_resize_placed_witness :
  length (snd (fst (Banner.resize Banner.CFG 800 200 (constRng (1 / 2)))))
  = 10%nat.
Proof.
  apply (banner_resize_placed 800 200 (constRng (1 / 2)) unitDraws_half).
Defined.
